(** * upload_s3_files_to_bucket.py: directory upload with asynchronous logging

    A shallow embedding of [src/upload_s3_files_to_bucket.py]: the log
    records and their formatting, the [AsyncLogHandler] worker, the walk over
    the directory tree, the upload loop of [upload_directory_to_s3], and the
    interleaving of the uploading thread with the worker thread. *)

From Stdlib Require Import String Ascii List Arith NArith Lia Bool.
Import ListNotations.
Open Scope string_scope.
Open Scope list_scope.

(** ** Text helpers *)

Module Text.

(** One decimal digit, as [str] prints it. *)
Definition digit (n : N) : ascii :=
  match (n mod 10)%N with
  | 0 => "0" | 1 => "1" | 2 => "2" | 3 => "3" | 4 => "4"
  | 5 => "5" | 6 => "6" | 7 => "7" | 8 => "8" | _ => "9"
  end%N%char.

(** The [k] low decimal digits of [n], zero padded: what [strftime] prints for
    a field of width [k] ([%m], [%d], [%H], [%M], [%S] with [k = 2], [%Y] with
    [k = 4], [%f] with [k = 6]) when the field is below [10 ^ k]. *)
Fixpoint zero_padded (k : nat) (n : N) : string :=
  match k with
  | 0 => ""
  | S k' => zero_padded k' (n / 10)%N ++ String (digit n) ""
  end.

(** Python's [s[:-3]]: all but the last three characters. *)
Definition drop_last3 (s : string) : string :=
  substring 0 (String.length s - 3) s.

Definition is_digit (c : ascii) : bool :=
  match c with
  | "0" | "1" | "2" | "3" | "4" | "5" | "6" | "7" | "8" | "9" => true
  | _ => false
  end%char.

Fixpoint all_digits (s : string) : bool :=
  match s with
  | "" => true
  | String c s' => is_digit c && all_digits s'
  end.

(** Python's [line.split(" - ")]: cut at every occurrence of the separator,
    leftmost first, occurrences not overlapping.  [acc] holds the characters of
    the current field, last one first. *)
Fixpoint rev_string (acc s : string) : string :=
  match s with
  | "" => acc
  | String c s' => rev_string (String c acc) s'
  end.

Fixpoint split_from (acc s : string) : list string :=
  match s with
  | "" => [rev_string "" acc]
  | String c s' =>
      match s' with
      | String d (String e rest) =>
          if ((c =? " ") && (d =? "-") && (e =? " "))%char
          then rev_string "" acc :: split_from "" rest
          else split_from (String c acc) s'
      | _ => split_from (String c acc) s'
      end
  end.

Definition split_sep (s : string) : list string := split_from "" s.

(** Whether a separator starts at the character [c] followed by [s]. *)
Definition at_sep (c : ascii) (s : string) : bool :=
  match s with
  | String d (String e _) => ((c =? " ") && (d =? "-") && (e =? " "))%char
  | _ => false
  end.

(** Python's [" - ".join(fields)]. *)
Fixpoint join_sep (fields : list string) : string :=
  match fields with
  | [] => ""
  | [f] => f
  | f :: rest => f ++ " - " ++ join_sep rest
  end.

(** No space of [s] is followed by a hyphen: then [s], put in front of a
    separator, is cut off whole by [split_from]. *)
Fixpoint no_space_hyphen (s : string) : bool :=
  match s with
  | "" => true
  | String c s' =>
      match s' with
      | String d _ =>
          if ((c =? " ") && (d =? "-"))%char then false else no_space_hyphen s'
      | "" => true
      end
  end.

(** The number a string of decimal digits stands for. *)
Definition digit_value (c : ascii) : N := (N_of_ascii c - 48)%N.

Fixpoint decimal_from (acc : N) (s : string) : N :=
  match s with
  | "" => acc
  | String c s' => decimal_from (10 * acc + digit_value c)%N s'
  end.

Definition decimal_value (s : string) : N := decimal_from 0 s.

End Text.

(** ** Wall clock and [strftime] *)

Record datetime := {
  year : N; month : N; day : N;
  hour : N; minute : N; second : N;
  microsecond : N
}.

(** The instants [datetime.datetime.now()] can return whose year prints on four
    digits. *)
Definition valid_datetime (t : datetime) : Prop :=
  (1000 <= year t <= 9999 /\ 1 <= month t <= 12 /\ 1 <= day t <= 31 /\
   hour t < 24 /\ minute t < 60 /\ second t < 60 /\ microsecond t < 1000000)%N.

(** [t.strftime("%Y-%m-%d %H:%M:%S,%f")] *)
Definition strftime (t : datetime) : string :=
  Text.zero_padded 4 (year t) ++ "-" ++ Text.zero_padded 2 (month t) ++ "-" ++
  Text.zero_padded 2 (day t) ++ " " ++ Text.zero_padded 2 (hour t) ++ ":" ++
  Text.zero_padded 2 (minute t) ++ ":" ++ Text.zero_padded 2 (second t) ++ "," ++
  Text.zero_padded 6 (microsecond t).

(** ** Log records *)

(** The dict built by [log_async]. *)
Record LogRecord := {
  asctime : string;
  levelname : string;
  message : string
}.

(** What travels on [log_queue]: a record, or [None], the signal to terminate. *)
Definition queue_item := option LogRecord.

(** The dict [log_async] builds at instant [now]. *)
Definition log_entry (now : datetime) (level msg : string) : LogRecord :=
  {| asctime := Text.drop_last3 (strftime now);
     levelname := level;
     message := msg |}.

(** ** AsyncLogHandler *)

Module AsyncLogHandler.

(** Contents of the two log files, [INFO_LOG_FILE] and [ERROR_LOG_FILE]. *)
Record sinks := {
  info_log_file : string;
  error_log_file : string
}.

(** [AsyncLogHandler.format] *)
Definition format (record : LogRecord) : string :=
  asctime record ++ " - " ++ levelname record ++ " - " ++ message record.

Definition newline : string := String (ascii_of_nat 10) "".

(** [AsyncLogHandler.write_log], when [open] and [write] succeed: the file is
    opened in append mode, so the text goes after what the file holds. *)
Definition write_log (record : LogRecord) (fs : sinks) : sinks :=
  if String.eqb (levelname record) "ERROR"
  then {| info_log_file := info_log_file fs;
          error_log_file := error_log_file fs ++ format record ++ newline |}
  else {| info_log_file := info_log_file fs ++ format record ++ newline;
          error_log_file := error_log_file fs |}.

(** The worker thread: [Running] while it is in the loop of [run] (blocked in
    [get] when the queue is empty), [Exited] once it has left the loop on
    [None], [Died] when an exception of [write_log] has left [run]: nothing in
    [run] or [write_log] catches one. *)
Inductive thread_state := Running | Exited | Died.

(** The process-wide [log_queue], the one [async_handler] started at module
    initialisation, and the two log files. *)
Record process := {
  log_queue : list queue_item;
  worker : thread_state;
  files : sinks
}.

(** Module initialisation: an empty queue and a started worker. *)
Definition start (fs : sinks) : process :=
  {| log_queue := []; worker := Running; files := fs |}.

(** [log_queue.put(item)]: the queue has no size limit, the call does not
    wait. *)
Definition put (item : queue_item) (p : process) : process :=
  {| log_queue := log_queue p ++ [item]; worker := worker p; files := files p |}.

(** One iteration of the loop of [AsyncLogHandler.run].  [write_ok] says
    whether [open] and [write] succeed in this iteration; when they do not
    (the file cannot be opened for appending) the file is left as it was and
    the exception leaves [write_log] and [run]. *)
Definition run_step (write_ok : bool) (p : process) : process :=
  match worker p with
  | Running =>
      match log_queue p with
      | [] => p
      | None :: q => {| log_queue := q; worker := Exited; files := files p |}
      | Some record :: q =>
          if write_ok
          then {| log_queue := q; worker := Running;
                  files := write_log record (files p) |}
          else {| log_queue := q; worker := Died; files := files p |}
      end
  | _ => p
  end.

(** Who runs next: the thread that puts records on the queue, or the worker. *)
Inductive turn := Producer | Consumer (write_ok : bool).

(** The two threads under a schedule.  [pending] lists the [put] calls the
    producing thread has still to make; it has returned when none is left. *)
Fixpoint interleave (sched : list turn) (pending : list queue_item)
    (p : process) : list queue_item * process :=
  match sched with
  | [] => (pending, p)
  | Producer :: sched' =>
      match pending with
      | [] => interleave sched' [] p
      | item :: pending' => interleave sched' pending' (put item p)
      end
  | Consumer write_ok :: sched' => interleave sched' pending (run_step write_ok p)
  end.

(** The records put before the first [None]. *)
Fixpoint before_sentinel (items : list queue_item) : list LogRecord :=
  match items with
  | [] => []
  | None :: _ => []
  | Some record :: rest => record :: before_sentinel rest
  end.

(** What the two files hold after the records [rs] have been written, in that
    order, to files that held [fs]. *)
Definition written (rs : list LogRecord) (fs : sinks) : sinks :=
  fold_left (fun acc record => write_log record acc) rs fs.

(** The text the records [rs] add to one of the two files: to the error file
    when [to_error] is [true], to the info file otherwise. *)
Fixpoint sink_text (to_error : bool) (rs : list LogRecord) : string :=
  match rs with
  | [] => ""
  | record :: rest =>
      ((if Bool.eqb (String.eqb (levelname record) "ERROR") to_error
        then format record ++ newline else "") ++
       sink_text to_error rest)%string
  end.

(** The number of turns of the producing thread in a schedule. *)
Definition producer_turns (sched : list turn) : nat :=
  length (filter (fun t => match t with Producer => true | _ => false end)
                 sched).

(** What holds of the two threads all along, when the producing thread makes
    the calls [items] and the files held [fs] at the start: the worker has
    taken a first part of [items] off the queue and written its records [rs];
    what follows is in the queue or still to be put, after the sentinel that
    ended the worker or the record whose write failed, if any. *)
Definition consistent (items : list queue_item) (fs : sinks)
    (pending : list queue_item) (p : process) : Prop :=
  exists rs : list LogRecord,
    files p = written rs fs /\
    match worker p with
    | Running => items = map Some rs ++ log_queue p ++ pending
    | Exited => items = map Some rs ++ None :: log_queue p ++ pending
    | Died =>
        exists record,
          items = map Some rs ++ Some record :: log_queue p ++ pending
    end.

End AsyncLogHandler.

(** ** The directory tree and [os.walk] *)

(** What the file system holds at a path: a file, or a directory with its
    entries in listing order. *)
#[warnings="-register-all"]
Inductive node :=
| File
| Dir (entries : list (string * node)).

Definition is_dir (n : node) : bool :=
  match n with Dir _ => true | File => false end.

Definition starts_with_slash (s : string) : bool :=
  match s with String "/" _ => true | _ => false end.

Fixpoint ends_with_slash (s : string) : bool :=
  match s with
  | "" => false
  | String c "" => Ascii.eqb c "/"
  | String _ s' => ends_with_slash s'
  end.

(** [os.path.join(a, b)] *)
Definition path_join (a b : string) : string :=
  if starts_with_slash b then b
  else if String.eqb a "" || ends_with_slash a then a ++ b
  else a ++ "/" ++ b.

Definition dirnames (entries : list (string * node)) : list string :=
  map fst (filter (fun e => is_dir (snd e)) entries).

Definition filenames (entries : list (string * node)) : list string :=
  map fst (filter (fun e => negb (is_dir (snd e))) entries).

(** [os.walk(top)], top down: the triple of the directory, then the walks of
    its sub-directories.  A [top] that is not a directory yields nothing. *)
Fixpoint walk (top : string) (n : node) : list (string * list string * list string) :=
  match n with
  | File => []
  | Dir entries =>
      (top, dirnames entries, filenames entries) ::
      (fix walk_entries (es : list (string * node)) :=
         match es with
         | [] => []
         | (name, child) :: rest =>
             walk (path_join top name) child ++ walk_entries rest
         end) entries
  end.

(** [root] is what the file system holds at [top], [None] when the path does
    not exist: [scandir] fails and [os.walk] ignores the error. *)
Definition os_walk (top : string) (root : option node) :
    list (string * list string * list string) :=
  match root with
  | None => []
  | Some n => walk top n
  end.

(** The files of the tree, with their paths, in the order the two loops of
    [upload_directory_to_s3] meet them. *)
Definition enumerated (top : string) (root : option node) : list string :=
  flat_map (fun t => map (path_join (fst (fst t))) (snd t)) (os_walk top root).

(** ** upload_directory_to_s3 *)

(** How the body of the [try] ends: normally, or with one of the exceptions
    the handlers tell apart. *)
Inductive try_result :=
| Uploaded
| RaisedFileNotFoundError
| RaisedNoCredentialsError
| RaisedException (e : string).

Inductive console_line :=
| Stdout (text : string)
| Stderr (text : string).

(** The ways the body can end after which the loop calls [log_async]: all but
    the last handler, which calls [logger.error]. *)
Definition calls_log_async (result : try_result) : bool :=
  match result with
  | RaisedException _ => false
  | _ => true
  end.

(** The ways the body can end after which something is written to the
    console: [print] after an upload, [logger.error] in the last handler. *)
Definition writes_console (result : try_result) : bool :=
  match result with
  | Uploaded | RaisedException _ => true
  | _ => false
  end.

(** The path and the result of an entry of [uploads]. *)
Definition upload_path (a : string * string * try_result) : string :=
  fst (fst a).

Definition upload_result (a : string * string * try_result) : try_result :=
  snd a.

Section Upload.

(** Everything outside the program: the file system at upload time, the
    object store, the credentials, the clock. *)
Variable World : Type.

(** [open(full_path, "rb")] followed by [s3.upload_fileobj(data, bucket,
    key)]. *)
Variable open_and_upload :
  World -> string -> string -> string -> try_result * World.

(** [datetime.datetime.now()] *)
Variable now : World -> datetime.

(** The uploading thread: the world, the uploads tried so far with how each
    ended, the [put] calls made on [log_queue], the console. *)
Record uploader := {
  env : World;
  uploads : list (string * string * try_result);
  enqueued : list queue_item;
  console : list console_line
}.

Definition begin (w : World) : uploader :=
  {| env := w; uploads := []; enqueued := []; console := [] |}.

Definition queue_put (item : queue_item) (u : uploader) : uploader :=
  {| env := env u; uploads := uploads u;
     enqueued := enqueued u ++ [item]; console := console u |}.

(** [log_async(level, msg)] *)
Definition log_async (level msg : string) (u : uploader) : uploader :=
  queue_put (Some (log_entry (now (env u)) level msg)) u.

(** [print(text)] *)
Definition print (text : string) (u : uploader) : uploader :=
  {| env := env u; uploads := uploads u; enqueued := enqueued u;
     console := console u ++ [Stdout text] |}.

(** [logger.error(msg)]: the only handler of [logger] is the stream handler
    with the formatter ["%(asctime)s - %(levelname)s - %(message)s"]. *)
Definition logger_error (msg : string) (u : uploader) : uploader :=
  {| env := env u; uploads := uploads u; enqueued := enqueued u;
     console := console u ++
       [Stderr (AsyncLogHandler.format (log_entry (now (env u)) "ERROR" msg))] |}.

(** The body of the inner loop for one file; the boolean is [true] when the
    handler ends in [break]. *)
Definition upload_file (subdir bucket_name file : string) (u : uploader) :
    uploader * bool :=
  let full_path := path_join subdir file in
  let (result, w) := open_and_upload (env u) full_path bucket_name file in
  let u1 := {| env := w;
               uploads := uploads u ++ [(full_path, file, result)];
               enqueued := enqueued u; console := console u |} in
  match result with
  | Uploaded =>
      let text := ("File " ++ file ++ " uploaded to " ++ bucket_name)%string in
      (print text (log_async "INFO" text u1), false)
  | RaisedFileNotFoundError =>
      (log_async "ERROR" ("The file " ++ file ++ " was not found")%string u1,
       false)
  | RaisedNoCredentialsError =>
      (log_async "ERROR" "Credentials not available" u1, true)
  | RaisedException e =>
      (logger_error ("Error uploading file " ++ file ++ ": " ++ e)%string u1,
       false)
  end.

(** [for file in files: ...] *)
Fixpoint upload_files (subdir bucket_name : string) (files : list string)
    (u : uploader) : uploader :=
  match files with
  | [] => u
  | file :: rest =>
      let (u', stop) := upload_file subdir bucket_name file u in
      if stop then u' else upload_files subdir bucket_name rest u'
  end.

(** [for subdir, dirs, files in os.walk(local_directory): ...] *)
Fixpoint upload_walk (bucket_name : string)
    (triples : list (string * list string * list string)) (u : uploader) :
    uploader :=
  match triples with
  | [] => u
  | (subdir, _, files) :: rest =>
      upload_walk bucket_name rest (upload_files subdir bucket_name files u)
  end.

(** [upload_directory_to_s3(local_directory, bucket_name)], where the file
    system holds [root] at [local_directory]. *)
Definition upload_directory_to_s3 (local_directory : string)
    (root : option node) (bucket_name : string) (u : uploader) : uploader :=
  queue_put None
    (upload_walk bucket_name (os_walk local_directory root) u).

(** The log records among the [put] calls. *)
Definition log_records (u : uploader) : list LogRecord :=
  flat_map (fun item => match item with Some r => [r] | None => [] end)
           (enqueued u).

(** No sentinel is put before the end of the walk. *)
Definition only_records (u : uploader) : Prop :=
  enqueued u = map Some (log_records u).

(** As many records as results whose handler calls [log_async]. *)
Definition records_counted (u : uploader) : Prop :=
  length (log_records u) =
  length (filter (fun a => calls_log_async (upload_result a)) (uploads u)).

(** No upload of the run has ended with [NoCredentialsError]. *)
Definition no_halt (u : uploader) : Prop :=
  forall a, In a (uploads u) -> upload_result a <> RaisedNoCredentialsError.

(** As many console lines as results that write one. *)
Definition console_counted (u : uploader) : Prop :=
  length (console u) =
  length (filter (fun a => writes_console (upload_result a)) (uploads u)).

End Upload.

Arguments env {World}.
Arguments uploads {World}.
Arguments enqueued {World}.
Arguments console {World}.
Arguments begin {World}.
Arguments log_records {World}.
Arguments only_records {World}.
Arguments records_counted {World}.
Arguments console_counted {World}.
Arguments no_halt {World}.

(** ** A scripted world, for running the program on concrete inputs *)

Module Script.

(** The world is the list of how the coming uploads end; when the script is
    over every upload succeeds. *)
Definition world := list try_result.

Definition open_and_upload (w : world) (full_path bucket key : string) :
    try_result * world :=
  match w with
  | [] => (Uploaded, [])
  | r :: w' => (r, w')
  end.

Definition clock : datetime :=
  {| year := 2024; month := 3; day := 7;
     hour := 9; minute := 5; second := 41; microsecond := 896123 |}%N.

Definition now (w : world) : datetime := clock.

Definition run (local_directory : string) (root : option node)
    (bucket_name : string) (w : world) : uploader world :=
  upload_directory_to_s3 world open_and_upload now
    local_directory root bucket_name (begin w).

(** Some directory trees. *)
Definition one_file : node := Dir [("a.txt", File)].

Definition three_files : node :=
  Dir [("a.txt", File); ("b.txt", File); ("c.txt", File)].

Definition with_subdirectory : node :=
  Dir [("a.txt", File); ("sub", Dir [("b.txt", File)])].

(** Some runs of [upload_directory_to_s3] from a fresh process. *)
Definition missing_root : uploader world :=
  run "./test_files" None "lior-kovtun-bucket-test-two" [].

Definition one_upload : uploader world :=
  run "./test_files" (Some one_file) "bk" [Uploaded].

Definition three_uploads : uploader world :=
  run "./test_files" (Some three_files) "bk" [Uploaded; Uploaded; Uploaded].

Definition other_exception : uploader world :=
  run "./test_files" (Some one_file) "bk" [RaisedException "timed out"].

Definition mixed_results : uploader world :=
  run "./test_files" (Some three_files) "bk"
    [Uploaded; RaisedException "timed out"; Uploaded].

Definition vanished_file : uploader world :=
  run "./test_files" (Some one_file) "bk" [RaisedFileNotFoundError].

Definition no_credentials : uploader world :=
  run "./test_files" (Some with_subdirectory) "bk"
    [RaisedNoCredentialsError; RaisedNoCredentialsError].

(** The scenario of the spec: [b.txt] is deleted right before [open]. *)
Definition deleted_in_between : uploader world :=
  run "./test_files" (Some three_files) "bk"
    [Uploaded; RaisedFileNotFoundError; Uploaded].

(** A schedule in which the worker runs between the calls of the producing
    thread and after them. *)
Definition alternating : list AsyncLogHandler.turn :=
  [AsyncLogHandler.Producer; AsyncLogHandler.Consumer true;
   AsyncLogHandler.Producer; AsyncLogHandler.Producer;
   AsyncLogHandler.Consumer true; AsyncLogHandler.Producer;
   AsyncLogHandler.Consumer true; AsyncLogHandler.Consumer true].

(** Four calls of the producing thread, then the worker, whose first write
    fails. *)
Definition first_write_fails : list AsyncLogHandler.turn :=
  repeat AsyncLogHandler.Producer 4 ++
  [AsyncLogHandler.Consumer false; AsyncLogHandler.Consumer true;
   AsyncLogHandler.Consumer true; AsyncLogHandler.Consumer true].

(** Two log files not yet written to. *)
Definition empty_files : AsyncLogHandler.sinks :=
  {| AsyncLogHandler.info_log_file := "";
     AsyncLogHandler.error_log_file := "" |}.

End Script.

(** ** Further vocabulary for the upload loop *)

(** The key of an entry of [uploads]: the third argument of
    [s3.upload_fileobj]. *)
Definition upload_key (a : string * string * try_result) : string :=
  snd (fst a).

Definition is_no_credentials (result : try_result) : bool :=
  match result with RaisedNoCredentialsError => true | _ => false end.

Definition is_uploaded (result : try_result) : bool :=
  match result with Uploaded => true | _ => false end.

(** The results whose handler calls [log_async] with the level ERROR. *)
Definition is_error_logged (result : try_result) : bool :=
  match result with
  | RaisedFileNotFoundError | RaisedNoCredentialsError => true
  | _ => false
  end.

Definition is_stdout (line : console_line) : bool :=
  match line with Stdout _ => true | Stderr _ => false end.

Definition is_stderr (line : console_line) : bool :=
  match line with Stderr _ => true | Stdout _ => false end.

(** The routing test of [write_log]. *)
Definition is_error_record (record : LogRecord) : bool :=
  String.eqb (levelname record) "ERROR".

(** [l1] is [l2] with some elements left out, the others in the same order. *)
Inductive subsequence {A : Type} : list A -> list A -> Prop :=
| subsequence_nil : subsequence [] []
| subsequence_skip : forall x l1 l2,
    subsequence l1 l2 -> subsequence l1 (x :: l2)
| subsequence_take : forall x l1 l2,
    subsequence l1 l2 -> subsequence (x :: l1) (x :: l2).

(** A directory whose entries are all files. *)
Definition flat (n : node) : bool :=
  match n with
  | File => false
  | Dir entries => forallb (fun e => negb (is_dir (snd e))) entries
  end.

Section MoreUpload.

Variable World : Type.

(** Each upload has given a record or a line of the console logger, and each
    upload that went through a line on the standard output. *)
Definition reported_once (u : uploader World) : Prop :=
  length (log_records u) + length (filter is_stderr (console u)) =
    length (uploads u) /\
  length (filter is_stdout (console u)) =
    length (filter (fun a => is_uploaded (upload_result a)) (uploads u)).

(** The records are as many, file by file, as the results that lead to
    them, and their level names are the two the loop uses. *)
Definition routed_by_result (u : uploader World) : Prop :=
  length (filter is_error_record (log_records u)) =
    length (filter (fun a => is_error_logged (upload_result a)) (uploads u)) /\
  length (filter (fun r => negb (is_error_record r)) (log_records u)) =
    length (filter (fun a => is_uploaded (upload_result a)) (uploads u)) /\
  Forall (fun r => levelname r = "INFO" \/ levelname r = "ERROR")
         (log_records u).

End MoreUpload.

Arguments reported_once {World}.
Arguments routed_by_result {World}.

(** Every write of the schedule succeeds. *)
Definition writes_succeed (sched : list AsyncLogHandler.turn) : bool :=
  forallb (fun t => match t with
                    | AsyncLogHandler.Consumer ok => ok
                    | AsyncLogHandler.Producer => true
                    end) sched.

(** ** The names of the log files *)

(** [datetime.datetime.now().strftime("%Y-%m-%d")], taken once when the
    module is loaded. *)
Definition current_date (t : datetime) : string :=
  Text.zero_padded 4 (year t) ++ "-" ++ Text.zero_padded 2 (month t) ++ "-" ++
  Text.zero_padded 2 (day t).

(** [INFO_LOG_FILE] and [ERROR_LOG_FILE], for the directory [LOG_DIR] of the
    script and the instant the module is loaded. *)
Definition INFO_LOG_FILE (LOG_DIR : string) (t : datetime) : string :=
  path_join LOG_DIR ("upload_info_" ++ current_date t ++ ".log").

Definition ERROR_LOG_FILE (LOG_DIR : string) (t : datetime) : string :=
  path_join LOG_DIR ("upload_error_" ++ current_date t ++ ".log").

(** The number of line ends in a text. *)
Fixpoint count_newlines (s : string) : nat :=
  match s with
  | "" => 0
  | String c s' =>
      (if Ascii.eqb c (ascii_of_nat 10) then 1 else 0) + count_newlines s'
  end.

(** Further inputs for running the program. *)
Module MoreScript.

(** Sub-directories and no file anywhere. *)
Definition only_directories : node :=
  Dir [("sub", Dir [("inner", Dir [])]); ("other", Dir [])].

(** The same file name in two directories. *)
Definition same_name_twice : node :=
  Dir [("a.txt", File); ("sub", Dir [("a.txt", File)])].

Definition same_name_uploads : uploader Script.world :=
  Script.run "./test_files" (Some same_name_twice) "bk" [].

(** The second of three uploads finds no credentials. *)
Definition halted_in_flat : uploader Script.world :=
  Script.run "./test_files" (Some Script.three_files) "bk"
    [Uploaded; RaisedNoCredentialsError].

(** A file whose name holds a line feed. *)
Definition line_feed_name : node :=
  Dir [(("a" ++ AsyncLogHandler.newline ++ "b.txt")%string, File)].

Definition line_feed_upload : uploader Script.world :=
  Script.run "./test_files" (Some line_feed_name) "bk" [Uploaded].

End MoreScript.

(** ** emg_filter_and_save.py: filtering the EMG channels of an EDF file *)

Module EmgFilter.

(** [label.upper()] on the ASCII text an EDF header holds. *)
Definition upper_char (c : ascii) : ascii :=
  let n := nat_of_ascii c in
  if Nat.leb 97 n && Nat.leb n 122 then ascii_of_nat (n - 32) else c.

Fixpoint upper (s : string) : string :=
  match s with
  | "" => ""
  | String c s' => String (upper_char c) (upper s')
  end.

(** [s.startswith(p)] *)
Fixpoint startswith (p s : string) : bool :=
  match p with
  | "" => true
  | String a p' =>
      match s with
      | "" => false
      | String b s' => Ascii.eqb a b && startswith p' s'
      end
  end.

(** [p in s] *)
Fixpoint contains (p s : string) : bool :=
  startswith p s ||
  match s with
  | "" => false
  | String _ s' => contains p s'
  end.

(** How a call ends: with a value, or with an exception and its text. *)
Inductive outcome (A : Type) :=
| Returned (value : A)
| Raised (e : string).

Arguments Returned {A}.
Arguments Raised {A}.

(** [str(KeyError(key))] *)
Definition key_error (key : string) : string := "'" ++ key ++ "'".

Section ProcessEdf.

(** The samples of a channel, a sampling rate, and what a signal header holds
    beside its label and its sampling rate. *)
Variable Signal Rate Other : Type.

(** The dict of [getSignalHeader]: the text under ['label'], the number under
    ['sample_rate'] when the dict has that key ([None] when it has not), and
    the rest. *)
Record header := {
  label : string;
  sample_rate : option Rate;
  other : Other
}.

Definition channel : Type := header * Signal.

(** [apply_filter(data, fs)], with the default band and order: the filter
    design and [filtfilt] are scipy's. *)
Variable apply_filter : Signal -> Rate -> outcome Signal.

(** The file system, with the writer that is open, if any. *)
Variable World : Type.

(** Reading [input_file]: the reader cannot be opened, a header or a signal
    cannot be read, or the channels are read; [close] is the exception, if
    any, of leaving the [with] block of the reader. *)
Inductive read_outcome :=
| OpenFailed (e : string)
| ReadFailed (e : string)
| Read (channels : list channel) (close : option string).

Variable read_edf : World -> string -> read_outcome.

(** The calls on the writer of [output_file]; each gives the exception it
    raises, if any, and the world it leaves:
    [pyedflib.EdfWriter(output_file, n)], [writer.setSignalHeader(i, h)],
    [writer.writePhysicalSamples(signal)], and leaving the [with] block. *)
Variable open_writer : World -> string -> nat -> option string * World.
Variable set_signal_header :
  World -> string -> nat -> header -> option string * World.
Variable write_physical_samples :
  World -> string -> Signal -> option string * World.
Variable close_writer : World -> string -> option string * World.

(** ['EMG' in header['label'].upper()] *)
Definition is_emg (h : header) : bool := contains "EMG" (upper (label h)).

(** The header of a filtered channel: a copy with the label changed. *)
Definition filtered_header (h : header) : header :=
  {| label := "Filtered_" ++ label h;
     sample_rate := sample_rate h;
     other := other h |}.

(** The loop over the signals: the new headers and signals, or the first
    exception: the KeyError of a header without ['sample_rate'], looked up
    for every channel, or what [apply_filter] raises on an EMG channel. *)
Fixpoint filter_channels (channels : list channel) : outcome (list channel) :=
  match channels with
  | [] => Returned []
  | (h, signal) :: rest =>
      match sample_rate h with
      | None => Raised (key_error "sample_rate")
      | Some fs =>
          if is_emg h then
            match apply_filter signal fs with
            | Raised e => Raised e
            | Returned filtered =>
                match filter_channels rest with
                | Raised e => Raised e
                | Returned done =>
                    Returned ((filtered_header h, filtered) :: done)
                end
            end
          else
            match filter_channels rest with
            | Raised e => Raised e
            | Returned done => Returned ((h, signal) :: done)
            end
      end
  end.

(** The loop over the new signals, from the index [i] on: the header of the
    channel is set, then its samples are written. *)
Fixpoint write_channels (output_file : string) (i : nat)
    (channels : list channel) (w : World) : option string * World :=
  match channels with
  | [] => (None, w)
  | (h, signal) :: rest =>
      match set_signal_header w output_file i h with
      | (Some e, w1) => (Some e, w1)
      | (None, w1) =>
          match write_physical_samples w1 output_file signal with
          | (Some e, w2) => (Some e, w2)
          | (None, w2) => write_channels output_file (S i) rest w2
          end
      end
  end.

Definition opened : string := "Input file opened successfully.".
Definition processed : string := "Signals processed. Writing to output file...".
Definition written_line : string := "Output file written successfully.".
Definition error_line (e : string) : string := "An error occurred: " ++ e.

(** The [with] block of the writer: what is printed after the two lines of
    the reader's block, and the world afterwards.  An exception in the block
    goes through the exit of the writer, whose own exception takes its
    place. *)
Definition write_all (output_file : string) (new_channels : list channel)
    (w : World) : list string * World :=
  match open_writer w output_file (length new_channels) with
  | (Some e, w1) => ([error_line e], w1)
  | (None, w1) =>
      match write_channels output_file 0 new_channels w1 with
      | (Some e, w2) =>
          match close_writer w2 output_file with
          | (Some e', w3) => ([error_line e'], w3)
          | (None, w3) => ([error_line e], w3)
          end
      | (None, w2) =>
          match close_writer w2 output_file with
          | (Some e, w3) => ([written_line; error_line e], w3)
          | (None, w3) => ([written_line], w3)
          end
      end
  end.

(** [process_edf(input_file, output_file)]: what is printed, and the file
    system afterwards. *)
Definition process_edf (input_file output_file : string) (w : World) :
    list string * World :=
  match read_edf w input_file with
  | OpenFailed e => ([error_line e], w)
  | ReadFailed e => ([opened; error_line e], w)
  | Read channels close =>
      match filter_channels channels with
      | Raised e =>
          ([opened; error_line (match close with Some e' => e' | None => e end)],
           w)
      | Returned new_channels =>
          match close with
          | Some e => ([opened; processed; error_line e], w)
          | None =>
              let (lines, w') := write_all output_file new_channels w in
              (opened :: processed :: lines, w')
          end
      end
  end.

End ProcessEdf.

Arguments label {Rate Other}.
Arguments sample_rate {Rate Other}.
Arguments other {Rate Other}.
Arguments is_emg {Rate Other}.
Arguments filtered_header {Rate Other}.
Arguments filter_channels {Signal Rate Other}.

End EmgFilter.

(** A small world for running [process_edf]: signals are lists of numbers,
    the filter refuses an empty signal, two input files exist, and the file
    system is the list of the calls made on writers, the last one first. *)
Module EmgScript.

Definition header := EmgFilter.header nat unit.
Definition channel := EmgFilter.channel (list nat) nat unit.

Inductive call :=
| NewWriter (output_file : string) (n : nat)
| SetSignalHeader (output_file : string) (i : nat) (h : header)
| WritePhysicalSamples (output_file : string) (signal : list nat)
| CloseWriter (output_file : string).

Definition world := list call.

Definition apply_filter (data : list nat) (fs : nat) :
    EmgFilter.outcome (list nat) :=
  match data with
  | [] => EmgFilter.Raised "The length of the input vector x must be greater than padlen"
  | _ => EmgFilter.Returned (map (fun x => x / 2) data)
  end.

Definition named (name : string) : header :=
  {| EmgFilter.label := name; EmgFilter.sample_rate := Some 4000;
     EmgFilter.other := tt |}.

(** A header without the key ['sample_rate']. *)
Definition unrated (name : string) : header :=
  {| EmgFilter.label := name; EmgFilter.sample_rate := None;
     EmgFilter.other := tt |}.

Definition recording : list channel :=
  [(named "EEG Fpz-Cz", [8; 6]); (named "emg Chin", [4; 2]);
   (named "EMG-L", [10])].

Definition filtered_recording : list channel :=
  [(named "EEG Fpz-Cz", [8; 6]); (named "Filtered_emg Chin", [2; 1]);
   (named "Filtered_EMG-L", [5])].

Definition broken_recording : list channel :=
  [(named "EEG Fpz-Cz", [8; 6]); (named "Emg Chin", [])].

Definition unrated_recording : list channel :=
  [(named "EEG Fpz-Cz", [8; 6]); (unrated "EOG horizontal", [3])].

Definition read_edf (w : world) (input_file : string) :
    EmgFilter.read_outcome (list nat) nat unit :=
  if String.eqb input_file "night.EDF" then EmgFilter.Read _ _ _ recording None
  else if String.eqb input_file "broken.EDF"
       then EmgFilter.Read _ _ _ broken_recording None
       else EmgFilter.OpenFailed _ _ _ "can not open file, no such file or directory".

Definition open_writer (w : world) (output_file : string) (n : nat) :
    option string * world :=
  (None, NewWriter output_file n :: w).

Definition set_signal_header (w : world) (output_file : string) (i : nat)
    (h : header) : option string * world :=
  (None, SetSignalHeader output_file i h :: w).

Definition write_physical_samples (w : world) (output_file : string)
    (signal : list nat) : option string * world :=
  (None, WritePhysicalSamples output_file signal :: w).

Definition close_writer (w : world) (output_file : string) :
    option string * world :=
  (None, CloseWriter output_file :: w).

Definition process_edf (input_file output_file : string) (w : world) :
    list string * world :=
  EmgFilter.process_edf (list nat) nat unit apply_filter world
    read_edf open_writer set_signal_header write_physical_samples
    close_writer input_file output_file w.

End EmgScript.

(** * Properties *)

(** ** Strings *)

Module TextFacts.
Import Text.

Lemma append_assoc (a b c : string) : ((a ++ b) ++ c = a ++ (b ++ c))%string.
Proof. induction a as [|x a IH]; simpl; [reflexivity | now rewrite IH]. Qed.

Lemma append_nil_r (a : string) : (a ++ "")%string = a.
Proof. induction a as [|x a IH]; simpl; [reflexivity | now rewrite IH]. Qed.

Lemma length_append (a b : string) :
  String.length (a ++ b) = String.length a + String.length b.
Proof. induction a as [|x a IH]; simpl; [reflexivity | now rewrite IH]. Qed.

Lemma substring_prefix (a b : string) :
  substring 0 (String.length a) (a ++ b) = a.
Proof.
  induction a as [|x a IH]; simpl.
  - destruct b; reflexivity.
  - now rewrite IH.
Qed.

Lemma length_zero_padded (k : nat) (n : N) :
  String.length (zero_padded k n) = k.
Proof.
  revert n; induction k as [|k IH]; intros n; simpl; [reflexivity|].
  rewrite length_append, IH; simpl; lia.
Qed.

(** Dropping three characters undoes appending three. *)
Lemma drop_last3_append (a b : string) :
  String.length b = 3 -> drop_last3 (a ++ b) = a.
Proof.
  intros Hb; unfold drop_last3.
  rewrite length_append, Hb.
  replace (String.length a + 3 - 3) with (String.length a) by lia.
  apply substring_prefix.
Qed.

Lemma zero_padded_add (j k : nat) (n : N) :
  zero_padded (k + j) n =
  (zero_padded k (n / 10 ^ N.of_nat j) ++ zero_padded j n)%string.
Proof.
  revert n; induction j as [|j IH]; intros n.
  - rewrite Nat.add_0_r; simpl zero_padded at 3.
    now rewrite append_nil_r, N.pow_0_r, N.div_1_r.
  - rewrite Nat.add_succ_r; simpl zero_padded at 1 3.
    rewrite IH, append_assoc.
    rewrite N.Div0.div_div, Nat2N.inj_succ, N.pow_succ_r'.
    reflexivity.
Qed.

(** The microseconds on six digits are the milliseconds on three, then three
    more digits. *)
Lemma zero_padded_micro (n : N) :
  zero_padded 6 n = (zero_padded 3 (n / 1000) ++ zero_padded 3 n)%string.
Proof. exact (zero_padded_add 3 3 n). Qed.

Lemma digit_cases (n : N) :
  In (digit n) ["0"; "1"; "2"; "3"; "4"; "5"; "6"; "7"; "8"; "9"]%char.
Proof.
  unfold digit; destruct (n mod 10)%N as [|p]; simpl; [tauto|].
  do 4 (try destruct p as [p|p|]); simpl; tauto.
Qed.

Lemma is_digit_digit (n : N) : is_digit (digit n) = true.
Proof.
  pose proof (digit_cases n) as H; simpl in H.
  repeat (destruct H as [H|H]; [rewrite <- H; reflexivity|]); contradiction.
Qed.

Lemma digit_not_space (n : N) : (digit n =? " ")%char = false.
Proof.
  pose proof (digit_cases n) as H; simpl in H.
  repeat (destruct H as [H|H]; [rewrite <- H; reflexivity|]); contradiction.
Qed.

Lemma digit_not_hyphen (n : N) : (digit n =? "-")%char = false.
Proof.
  pose proof (digit_cases n) as H; simpl in H.
  repeat (destruct H as [H|H]; [rewrite <- H; reflexivity|]); contradiction.
Qed.

Lemma digit_value_digit (n : N) : digit_value (digit n) = (n mod 10)%N.
Proof.
  assert (Hlt : (n mod 10 < 10)%N) by (apply N.mod_lt; discriminate).
  unfold digit; destruct (n mod 10)%N as [|p]; [reflexivity|].
  do 4 (try destruct p as [p|p|]); try reflexivity; exfalso; lia.
Qed.

Lemma decimal_from_append (a b : string) (acc : N) :
  decimal_from acc (a ++ b) = decimal_from (decimal_from acc a) b.
Proof.
  revert acc; induction a as [|x a IH]; intros acc; simpl;
    [reflexivity | apply IH].
Qed.

(** [zero_padded k n] is made of digits and reads back as [n] when [n] fits
    in [k] digits. *)
Lemma decimal_value_zero_padded (k : nat) (n : N) :
  decimal_value (zero_padded k n) = (n mod 10 ^ N.of_nat k)%N.
Proof.
  unfold decimal_value; revert n; induction k as [|k IH]; intros n.
  - simpl; now rewrite N.mod_1_r.
  - simpl zero_padded; rewrite decimal_from_append, IH; cbn [decimal_from].
    rewrite digit_value_digit, Nat2N.inj_succ, N.pow_succ_r'.
    rewrite (N.Div0.mod_mul_r n 10 (10 ^ N.of_nat k)); lia.
Qed.

Lemma all_digits_append (a b : string) :
  all_digits (a ++ b) = all_digits a && all_digits b.
Proof.
  induction a as [|x a IH]; simpl; [reflexivity|].
  now rewrite IH, andb_assoc.
Qed.

Lemma all_digits_zero_padded (k : nat) (n : N) :
  all_digits (zero_padded k n) = true.
Proof.
  revert n; induction k as [|k IH]; intros n; simpl; [reflexivity|].
  rewrite all_digits_append, IH; simpl; now rewrite is_digit_digit.
Qed.

Lemma rev_string_acc (s x : string) :
  rev_string x s = (rev_string "" s ++ x)%string.
Proof.
  revert x; induction s as [|c s IH]; intros x; simpl; [reflexivity|].
  rewrite (IH (String c x)), (IH (String c "")), append_assoc; reflexivity.
Qed.

Lemma rev_string_twice (a acc : string) :
  rev_string "" (rev_string acc a) = (rev_string "" acc ++ a)%string.
Proof.
  revert acc; induction a as [|c a IH]; intros acc; simpl.
  - now rewrite append_nil_r.
  - rewrite IH; simpl; rewrite (rev_string_acc acc (String c "")).
    now rewrite append_assoc.
Qed.

Lemma split_from_nonempty (s acc : string) : split_from acc s <> [].
Proof.
  revert acc; induction s as [|c s IH]; intros acc; simpl; [discriminate|].
  destruct s as [|d [|e rest]]; try apply IH.
  destruct ((c =? " ") && (d =? "-") && (e =? " "))%char;
    [discriminate | apply IH].
Qed.

Lemma join_sep_cons (f : string) (l : list string) :
  l <> [] -> join_sep (f :: l) = (f ++ " - " ++ join_sep l)%string.
Proof. destruct l; [congruence | reflexivity]. Qed.

Lemma split_from_no_sep (c : ascii) (s acc : string) :
  at_sep c s = false ->
  split_from acc (String c s) = split_from (String c acc) s.
Proof.
  destruct s as [|d [|e rest]]; intros H; try reflexivity.
  replace (split_from acc (String c (String d (String e rest)))) with
    (if ((c =? " ") && (d =? "-") && (e =? " "))%char
     then rev_string "" acc :: split_from "" rest
     else split_from (String c acc) (String d (String e rest)))
    by reflexivity.
  simpl in H; rewrite H; reflexivity.
Qed.

Lemma split_from_sep (rest acc : string) :
  split_from acc (" - " ++ rest) = rev_string "" acc :: split_from "" rest.
Proof. reflexivity. Qed.

(** A field in which no space is followed by a hyphen is cut off whole at
    the separator that follows it. *)
Lemma split_from_field (a acc rest : string) :
  no_space_hyphen a = true ->
  split_from acc (a ++ " - " ++ rest) =
  (rev_string "" acc ++ a)%string :: split_from "" rest.
Proof.
  revert acc; induction a as [|c a IH]; intros acc Ha.
  - change ("" ++ " - " ++ rest)%string with (" - " ++ rest)%string.
    now rewrite split_from_sep, append_nil_r.
  - change (String c a ++ " - " ++ rest)%string
      with (String c (a ++ " - " ++ rest)).
    assert (Hno : at_sep c (a ++ " - " ++ rest) = false).
    { destruct a as [|d a'].
      - simpl; destruct (c =? " ")%char; reflexivity.
      - simpl in Ha |- *.
        destruct ((c =? " ") && (d =? "-"))%char; [discriminate|].
        destruct (a' ++ _)%string as [|e tl]; reflexivity. }
    assert (Ha' : no_space_hyphen a = true).
    { destruct a as [|d a']; [reflexivity|]. simpl in Ha.
      destruct ((c =? " ") && (d =? "-"))%char; [discriminate | exact Ha]. }
    rewrite (split_from_no_sep _ _ _ Hno), (IH _ Ha').
    change (rev_string "" (String c acc)) with (rev_string (String c "") acc).
    rewrite (rev_string_acc acc (String c "")), append_assoc; reflexivity.
Qed.

(** Joining what [split_from] returns gives the text back. *)
Lemma join_split_from (n : nat) :
  forall s acc, String.length s <= n ->
  join_sep (split_from acc s) = (rev_string "" acc ++ s)%string.
Proof.
  induction n as [|n IH]; intros s acc Hn.
  - destruct s; [|simpl in Hn; lia]. simpl; now rewrite append_nil_r.
  - destruct s as [|c s]; [simpl; now rewrite append_nil_r|].
    destruct (at_sep c s) eqn:Hsep.
    + destruct s as [|d [|e rest]]; try discriminate.
      simpl in Hsep.
      destruct (Ascii.eqb_spec c " ") as [-> | Hc]; [|discriminate].
      destruct (Ascii.eqb_spec d "-") as [-> | Hd]; [|discriminate].
      destruct (Ascii.eqb_spec e " ") as [-> | He]; [|discriminate].
      change (String " " (String "-" (String " " rest)))
        with (" - " ++ rest)%string.
      rewrite split_from_sep, join_sep_cons by apply split_from_nonempty.
      rewrite IH by (simpl in Hn; lia). reflexivity.
    + rewrite (split_from_no_sep _ _ _ Hsep), IH by (simpl in Hn; lia).
      change (rev_string "" (String c acc)) with (rev_string (String c "") acc).
      rewrite (rev_string_acc acc (String c "")), append_assoc; reflexivity.
Qed.

Lemma join_split (s : string) : join_sep (split_sep s) = s.
Proof. exact (join_split_from (String.length s) s "" (le_n _)). Qed.

End TextFacts.

(** ** Timestamps *)

(** [strftime(...)[:-3]] keeps the date, the time and the milliseconds. *)
Lemma asctime_milliseconds (t : datetime) :
  Text.drop_last3 (strftime t) =
  (Text.zero_padded 4 (year t) ++ "-" ++ Text.zero_padded 2 (month t) ++ "-" ++
   Text.zero_padded 2 (day t) ++ " " ++ Text.zero_padded 2 (hour t) ++ ":" ++
   Text.zero_padded 2 (minute t) ++ ":" ++ Text.zero_padded 2 (second t) ++
   "," ++ Text.zero_padded 3 (microsecond t / 1000))%string.
Proof.
  unfold strftime. rewrite TextFacts.zero_padded_micro.
  rewrite <- !TextFacts.append_assoc.
  rewrite TextFacts.drop_last3_append by apply TextFacts.length_zero_padded.
  reflexivity.
Qed.

Lemma asctime_length (t : datetime) :
  String.length (Text.drop_last3 (strftime t)) = 23.
Proof.
  rewrite asctime_milliseconds.
  rewrite !TextFacts.length_append, !TextFacts.length_zero_padded.
  reflexivity.
Qed.

Lemma asctime_no_space_hyphen (t : datetime) :
  Text.no_space_hyphen (Text.drop_last3 (strftime t)) = true.
Proof.
  rewrite asctime_milliseconds.
  cbn [Text.zero_padded append Text.no_space_hyphen].
  rewrite !TextFacts.digit_not_space, ?TextFacts.digit_not_hyphen.
  reflexivity.
Qed.

(** ** Routing and formatting of a record *)

Import AsyncLogHandler.

Lemma count_newlines_append (a b : string) :
  count_newlines (a ++ b) = count_newlines a + count_newlines b.
Proof.
  induction a as [|c a IH]; [reflexivity|].
  cbn [append count_newlines]; rewrite IH; lia.
Qed.

Lemma digit_not_newline (n : N) :
  Ascii.eqb (Text.digit n) (ascii_of_nat 10) = false.
Proof.
  pose proof (TextFacts.digit_cases n) as H; simpl in H.
  repeat (destruct H as [H|H]; [rewrite <- H; reflexivity|]); contradiction.
Qed.

Lemma count_newlines_zero_padded (k : nat) (n : N) :
  count_newlines (Text.zero_padded k n) = 0.
Proof.
  revert n; induction k as [|k IH]; intros n; [reflexivity|].
  cbn [Text.zero_padded]; rewrite count_newlines_append, IH.
  cbn [count_newlines]; now rewrite digit_not_newline.
Qed.

(** C6, as the code has it: a record made by [log_async] and taken off the
    queue by the worker is written to the error file exactly when its level
    name is ERROR and to the info file otherwise; the text is appended to what
    the file holds: "<timestamp> - <level name> - <message>" and one newline,
    where the timestamp is YYYY-MM-DD HH:MM:SS,mmm, 23 characters, mmm the
    milliseconds (the microseconds divided by 1000, not rounded).  Nothing is
    escaped: the text has one line end more than the level name and the
    message hold, so it is one line exactly when they hold none. *)
Theorem write_log_routes_and_formats :
  forall (now : datetime) (level msg : string) (q : list queue_item)
         (fs : sinks),
    valid_datetime now ->
    let record := log_entry now level msg in
    let p := {| log_queue := Some record :: q; worker := Running;
                files := fs |} in
    let stamp :=
      (Text.zero_padded 4 (year now) ++ "-" ++
       Text.zero_padded 2 (month now) ++ "-" ++
       Text.zero_padded 2 (day now) ++ " " ++
       Text.zero_padded 2 (hour now) ++ ":" ++
       Text.zero_padded 2 (minute now) ++ ":" ++
       Text.zero_padded 2 (second now) ++ "," ++
       Text.zero_padded 3 (microsecond now / 1000))%string in
    let line :=
      (stamp ++ " - " ++ level ++ " - " ++ msg ++
       String (ascii_of_nat 10) "")%string in
    String.length stamp = 23 /\
    Text.decimal_value (Text.zero_padded 3 (microsecond now / 1000)) =
      (microsecond now / 1000)%N /\
    log_queue (run_step true p) = q /\
    (level = "ERROR" ->
     files (run_step true p) =
     {| info_log_file := info_log_file fs;
        error_log_file := error_log_file fs ++ line |}) /\
    (level <> "ERROR" ->
     files (run_step true p) =
     {| info_log_file := info_log_file fs ++ line;
        error_log_file := error_log_file fs |}) /\
    count_newlines line = S (count_newlines level + count_newlines msg) /\
    (count_newlines line = 1 <->
     count_newlines level = 0 /\ count_newlines msg = 0).
Proof.
  intros now level msg q fs Hvalid record p stamp line.
  assert (Hcount : count_newlines line =
                   S (count_newlines level + count_newlines msg)).
  { unfold line, stamp.
    rewrite !count_newlines_append, !count_newlines_zero_padded.
    cbn; lia. }
  assert (Hstamp : asctime record = stamp) by apply asctime_milliseconds.
  assert (Hline : (format record ++ newline)%string = line).
  { unfold format, line; rewrite Hstamp; simpl levelname; simpl message.
    now rewrite !TextFacts.append_assoc. }
  split; [rewrite <- Hstamp; apply asctime_length|].
  split.
  { rewrite TextFacts.decimal_value_zero_padded.
    apply N.mod_small. destruct Hvalid as (_ & _ & _ & _ & _ & _ & Hus).
    apply N.Div0.div_lt_upper_bound. exact Hus. }
  split; [reflexivity|].
  unfold p, run_step; cbn [worker log_queue files]; unfold write_log.
  rewrite Hline; cbn [levelname record log_entry].
  split; [|split; [|split; [exact Hcount | rewrite Hcount; lia]]];
    intros Hlevel.
  - apply String.eqb_eq in Hlevel; now rewrite Hlevel.
  - apply String.eqb_neq in Hlevel; now rewrite Hlevel.
Qed.

Lemma write_log_routes_and_formats_witness :
  valid_datetime Script.clock /\
  files (run_step true
           {| log_queue :=
                [Some (log_entry Script.clock "ERROR" "Credentials not available")];
              worker := Running;
              files := {| info_log_file := ""; error_log_file := "" |} |}) =
  {| info_log_file := "";
     error_log_file :=
       "2024-03-07 09:05:41,896 - ERROR - Credentials not available" ++ newline |}.
Proof.
  assert (Hvalid : valid_datetime Script.clock)
    by (unfold valid_datetime; simpl; lia).
  split; [exact Hvalid|].
  exact (proj1 (proj2 (proj2 (proj2
    (write_log_routes_and_formats Script.clock "ERROR"
       "Credentials not available" []
       {| info_log_file := ""; error_log_file := "" |} Hvalid)))) eq_refl).
Defined.

(** C6 as stated fails: a file whose name holds a line feed is uploaded; the
    one record of the run, written by the worker, takes two lines of the info
    file. *)
Lemma record_with_line_feed_takes_two_lines :
  map message (log_records MoreScript.line_feed_upload) =
    ["File a" ++ newline ++ "b.txt uploaded to bk"]%string /\
  count_newlines
    (info_log_file
       (files (run_step true
                 {| log_queue := enqueued MoreScript.line_feed_upload;
                    worker := Running;
                    files := Script.empty_files |}))) = 2.
Proof. split; reflexivity. Qed.



(** ** The upload loop *)

Section UploadFacts.

Variable World : Type.
Variable open_and_upload :
  World -> string -> string -> string -> try_result * World.
Variable now : World -> datetime.

Local Abbreviation file_turn := (upload_file World open_and_upload now).
Local Abbreviation files_loop := (upload_files World open_and_upload now).
Local Abbreviation walk_loop := (upload_walk World open_and_upload now).
Local Abbreviation run := (upload_directory_to_s3 World open_and_upload now).

(** What one turn of the inner loop does, handler by handler. *)
Lemma upload_file_effect (subdir bucket_name file : string)
    (u : uploader World) :
  let full_path := path_join subdir file in
  let result := fst (open_and_upload (env u) full_path bucket_name file) in
  let w := snd (open_and_upload (env u) full_path bucket_name file) in
  let u' := fst (file_turn subdir bucket_name file u) in
  env u' = w /\
  uploads u' = uploads u ++ [(full_path, file, result)] /\
  enqueued u' = enqueued u ++
    match result with
    | Uploaded =>
        [Some (log_entry (now w) "INFO"
                 ("File " ++ file ++ " uploaded to " ++ bucket_name))]
    | RaisedFileNotFoundError =>
        [Some (log_entry (now w) "ERROR"
                 ("The file " ++ file ++ " was not found"))]
    | RaisedNoCredentialsError =>
        [Some (log_entry (now w) "ERROR" "Credentials not available")]
    | RaisedException _ => []
    end /\
  console u' = console u ++
    match result with
    | Uploaded =>
        [Stdout ("File " ++ file ++ " uploaded to " ++ bucket_name)]
    | RaisedException e =>
        [Stderr (format (log_entry (now w) "ERROR"
                   ("Error uploading file " ++ file ++ ": " ++ e)))]
    | _ => []
    end /\
  snd (file_turn subdir bucket_name file u) =
    match result with RaisedNoCredentialsError => true | _ => false end.
Proof.
  unfold upload_file.
  destruct (open_and_upload (env u) (path_join subdir file) bucket_name file)
    as [result w].
  destruct result; cbn; rewrite ?app_nil_r; repeat split; reflexivity.
Qed.

(** A property kept by every turn of the inner loop is kept by both
    loops. *)
Lemma upload_files_keeps (P : uploader World -> Prop) :
  (forall subdir bucket_name file u,
      P u -> P (fst (file_turn subdir bucket_name file u))) ->
  forall subdir bucket_name files u,
    P u -> P (files_loop subdir bucket_name files u).
Proof.
  intros Hstep subdir bucket_name files.
  induction files as [|file rest IH]; intros u Hu; [exact Hu|].
  cbn [upload_files].
  specialize (Hstep subdir bucket_name file u Hu).
  destruct (file_turn subdir bucket_name file u) as [u' stop].
  destruct stop; [exact Hstep | apply IH, Hstep].
Qed.

Lemma upload_walk_keeps (P : uploader World -> Prop) :
  (forall subdir bucket_name file u,
      P u -> P (fst (file_turn subdir bucket_name file u))) ->
  forall bucket_name triples u,
    P u -> P (walk_loop bucket_name triples u).
Proof.
  intros Hstep bucket_name triples.
  induction triples as [|[[subdir dirs] files] rest IH]; intros u Hu;
    [exact Hu|].
  cbn [upload_walk].
  apply IH, upload_files_keeps; assumption.
Qed.

Lemma log_records_app (u : uploader World) (items : list queue_item) :
  forall u' : uploader World, enqueued u' = enqueued u ++ items ->
  log_records u' = log_records u ++
    flat_map (fun item => match item with Some r => [r] | None => [] end)
             items.
Proof.
  intros u' H; unfold log_records; rewrite H; apply flat_map_app.
Qed.

Lemma upload_file_only_records subdir bucket_name file u :
  only_records u -> only_records (fst (file_turn subdir bucket_name file u)).
Proof.
  unfold only_records; intros Hu.
  destruct (upload_file_effect subdir bucket_name file u)
    as (_ & _ & Hq & _).
  rewrite (log_records_app u _ _ Hq), Hq, Hu, map_app.
  f_equal.
  destruct (fst (open_and_upload _ _ _ _)); reflexivity.
Qed.

Lemma upload_file_records_counted subdir bucket_name file u :
  records_counted u ->
  records_counted (fst (file_turn subdir bucket_name file u)).
Proof.
  unfold records_counted; intros Hu.
  destruct (upload_file_effect subdir bucket_name file u)
    as (_ & Hup & Hq & _).
  rewrite (log_records_app u _ _ Hq), Hup, filter_app, !length_app, Hu.
  f_equal.
  destruct (fst (open_and_upload _ _ _ _)); reflexivity.
Qed.

Lemma upload_file_console_counted subdir bucket_name file u :
  console_counted u ->
  console_counted (fst (file_turn subdir bucket_name file u)).
Proof.
  unfold console_counted; intros Hu.
  destruct (upload_file_effect subdir bucket_name file u)
    as (_ & Hup & _ & Hc & _).
  rewrite Hc, Hup, filter_app, !length_app, Hu.
  f_equal.
  destruct (fst (open_and_upload _ _ _ _)); reflexivity.
Qed.

(** The handler of NoCredentialsError ends the inner loop: the files that
    follow in the same directory are not tried. *)
Lemma upload_files_break subdir bucket_name file rest (u : uploader World) :
  fst (open_and_upload (env u) (path_join subdir file) bucket_name file) =
    RaisedNoCredentialsError ->
  files_loop subdir bucket_name (file :: rest) u =
  fst (file_turn subdir bucket_name file u).
Proof.
  intros Hres; cbn [upload_files].
  destruct (upload_file_effect subdir bucket_name file u)
    as (_ & _ & _ & _ & Hstop).
  rewrite Hres in Hstop.
  destruct (file_turn subdir bucket_name file u) as [u' stop].
  cbn [fst snd] in Hstop |- *; now rewrite Hstop.
Qed.

Lemma upload_file_extends subdir bucket_name file (u0 u : uploader World) :
  (exists l, uploads u = uploads u0 ++ l) ->
  exists l, uploads (fst (file_turn subdir bucket_name file u)) =
            uploads u0 ++ l.
Proof.
  intros [l Hl].
  destruct (upload_file_effect subdir bucket_name file u) as (_ & Hup & _).
  rewrite Hup, Hl, <- app_assoc; eauto.
Qed.

Lemma upload_files_extends subdir bucket_name files (u : uploader World) :
  exists l, uploads (files_loop subdir bucket_name files u) = uploads u ++ l.
Proof.
  apply (upload_files_keeps (fun u' => exists l, uploads u' = uploads u ++ l)).
  - intros; now apply upload_file_extends.
  - exists []; now rewrite app_nil_r.
Qed.

Lemma upload_walk_extends bucket_name triples (u : uploader World) :
  exists l, uploads (walk_loop bucket_name triples u) = uploads u ++ l.
Proof.
  apply (upload_walk_keeps (fun u' => exists l, uploads u' = uploads u ++ l)).
  - intros; now apply upload_file_extends.
  - exists []; now rewrite app_nil_r.
Qed.

(** Without a [break] the inner loop tries every file of the directory. *)
Lemma upload_files_no_halt subdir bucket_name files :
  forall u : uploader World,
    no_halt (files_loop subdir bucket_name files u) ->
    map upload_path (uploads (files_loop subdir bucket_name files u)) =
    map upload_path (uploads u) ++ map (path_join subdir) files.
Proof.
  induction files as [|file rest IH]; intros u Hno.
  - simpl; now rewrite app_nil_r.
  - cbn [upload_files] in Hno |- *.
    destruct (upload_file_effect subdir bucket_name file u)
      as (_ & Hup & _ & _ & Hstop).
    destruct (file_turn subdir bucket_name file u) as [u' stop].
    cbn [fst snd] in Hup, Hstop.
    destruct stop.
    + exfalso.
      apply (Hno (path_join subdir file, file,
                  fst (open_and_upload (env u) (path_join subdir file)
                         bucket_name file))).
      * rewrite Hup; apply in_or_app; right; now left.
      * unfold upload_result; cbn [snd].
        destruct (fst (open_and_upload _ _ _ _)); congruence.
    + rewrite (IH u' Hno), Hup, map_app; cbn [map].
      unfold upload_path at 2; cbn [fst].
      now rewrite <- app_assoc.
Qed.

Lemma upload_walk_no_halt bucket_name triples :
  forall u : uploader World,
    no_halt (walk_loop bucket_name triples u) ->
    map upload_path (uploads (walk_loop bucket_name triples u)) =
    map upload_path (uploads u) ++
    flat_map (fun t => map (path_join (fst (fst t))) (snd t)) triples.
Proof.
  induction triples as [|[[subdir dirs] files] rest IH]; intros u Hno.
  - simpl; now rewrite app_nil_r.
  - cbn [upload_walk] in Hno |- *.
    rewrite (IH _ Hno); cbn [flat_map fst snd].
    rewrite upload_files_no_halt, <- app_assoc; [reflexivity|].
    intros a Ha; apply Hno.
    destruct (upload_walk_extends bucket_name rest
                (files_loop subdir bucket_name files u)) as [l Hl].
    rewrite Hl; apply in_or_app; now left.
Qed.

(** The sentinel is put last, after every record of the run. *)
Lemma run_enqueued local_directory root bucket_name (w : World) :
  let u := run local_directory root bucket_name (begin w) in
  enqueued u = map Some (log_records u) ++ [None].
Proof.
  unfold upload_directory_to_s3.
  set (u1 := walk_loop bucket_name (os_walk local_directory root) (begin w)).
  assert (H1 : only_records u1).
  { apply upload_walk_keeps; [apply upload_file_only_records | reflexivity]. }
  unfold only_records in H1.
  assert (Hrec : log_records (queue_put World None u1) = log_records u1).
  { unfold log_records, queue_put; cbn [enqueued].
    rewrite flat_map_app; cbn [flat_map]; now rewrite !app_nil_r. }
  cbv zeta; rewrite Hrec, <- H1; reflexivity.
Qed.

Lemma run_log_records local_directory root bucket_name (u : uploader World) :
  log_records (run local_directory root bucket_name u) =
  log_records (walk_loop bucket_name (os_walk local_directory root) u).
Proof.
  unfold upload_directory_to_s3, log_records, queue_put; cbn [enqueued].
  rewrite flat_map_app; cbn [flat_map]; now rewrite !app_nil_r.
Qed.

(** C2, as the code has it: a file whose upload is tried puts exactly one
    record on the queue before the loop goes on, INFO after an upload, ERROR
    after FileNotFoundError and after NoCredentialsError, and none after any
    other exception (that error goes to the console logger).  A run puts
    as many records as uploads that did not end in another exception, then
    the sentinel; when no upload ended with NoCredentialsError every one of
    the N files of the tree is tried, and the records are N less the number
    of other exceptions. *)
Theorem one_record_per_logged_outcome :
  forall (local_directory bucket_name : string) (root : option node)
         (w : World),
    (forall (subdir file : string) (u : uploader World),
        let full_path := path_join subdir file in
        let result :=
          fst (open_and_upload (env u) full_path bucket_name file) in
        let at_log :=
          now (snd (open_and_upload (env u) full_path bucket_name file)) in
        enqueued (fst (file_turn subdir bucket_name file u)) =
        enqueued u ++
        match result with
        | Uploaded =>
            [Some (log_entry at_log "INFO"
                     ("File " ++ file ++ " uploaded to " ++ bucket_name))]
        | RaisedFileNotFoundError =>
            [Some (log_entry at_log "ERROR"
                     ("The file " ++ file ++ " was not found"))]
        | RaisedNoCredentialsError =>
            [Some (log_entry at_log "ERROR" "Credentials not available")]
        | RaisedException _ => []
        end) /\
    let u := run local_directory root bucket_name (begin w) in
    enqueued u = map Some (log_records u) ++ [None] /\
    length (log_records u) =
      length (filter (fun a => calls_log_async (upload_result a))
                     (uploads u)) /\
    (no_halt u ->
     map upload_path (uploads u) = enumerated local_directory root /\
     length (log_records u) +
     length (filter (fun a => negb (calls_log_async (upload_result a)))
                    (uploads u)) =
     length (enumerated local_directory root)).
Proof.
  intros local_directory bucket_name root w.
  split.
  { intros subdir file u.
    exact (proj1 (proj2 (proj2 (upload_file_effect subdir bucket_name file u)))). }
  cbv zeta.
  split; [apply run_enqueued|].
  assert (Hcount : records_counted
            (walk_loop bucket_name (os_walk local_directory root) (begin w))).
  { apply upload_walk_keeps;
      [apply upload_file_records_counted | reflexivity]. }
  unfold records_counted in Hcount.
  rewrite run_log_records.
  unfold upload_directory_to_s3 at 1 2 3; cbn [queue_put uploads].
  split; [exact Hcount|].
  intros Hno.
  assert (Hall : map upload_path
                   (uploads (walk_loop bucket_name
                               (os_walk local_directory root) (begin w))) =
                 enumerated local_directory root).
  { rewrite upload_walk_no_halt by exact Hno. reflexivity. }
  split; [exact Hall|].
  rewrite Hcount, <- Hall, length_map.
  set (l := uploads _).
  clear; induction l as [|a l IH]; simpl; [reflexivity|].
  destruct (calls_log_async (upload_result a)); simpl; lia.
Qed.



End UploadFacts.


(** The spec's scenario with another exception in place of the vanished
    file: three files, three uploads, no NoCredentialsError, two records. *)
Lemma one_record_per_logged_outcome_witness :
  no_halt Script.mixed_results /\
  map upload_path (uploads Script.mixed_results) =
    ["./test_files/a.txt"; "./test_files/b.txt"; "./test_files/c.txt"] /\
  length (log_records Script.mixed_results) = 2.
Proof.
  assert (Hno : no_halt Script.mixed_results).
  { intros a Ha; vm_compute in Ha.
    destruct Ha as [<- | [<- | [<- | []]]]; discriminate. }
  split; [exact Hno|].
  pose proof (proj2 (proj2 (proj2
    (one_record_per_logged_outcome Script.world Script.open_and_upload
       Script.now "./test_files" "bk" (Some Script.three_files)
       [Uploaded; RaisedException "timed out"; Uploaded]))) Hno) as [Hall _].
  split; [exact Hall | reflexivity].
Defined.

(** C2 as stated fails: one file, no NoCredentialsError, the upload raises
    another exception, and the run puts no record at all on the queue. *)
Lemma other_exception_puts_no_record :
  enumerated "./test_files" (Some Script.one_file) = ["./test_files/a.txt"] /\
  uploads Script.other_exception =
    [("./test_files/a.txt", "a.txt", RaisedException "timed out")] /\
  enqueued Script.other_exception = [None] /\
  length (log_records Script.other_exception) <>
  length (enumerated "./test_files" (Some Script.one_file)).
Proof. repeat split; try reflexivity; vm_compute; discriminate. Qed.


(** C1 on the code: [break] leaves the inner loop only.  The first file of
    the root raises NoCredentialsError; the walk goes on to the
    sub-directory, whose file is tried as well, and the run puts two ERROR
    records for the missing credentials instead of one. *)
Theorem credentials_halt_leaves_inner_loop_only :
  enumerated "./test_files" (Some Script.with_subdirectory) =
    ["./test_files/a.txt"; "./test_files/sub/b.txt"] /\
  uploads Script.no_credentials =
    [("./test_files/a.txt", "a.txt", RaisedNoCredentialsError);
     ("./test_files/sub/b.txt", "b.txt", RaisedNoCredentialsError)] /\
  map message (log_records Script.no_credentials) =
    ["Credentials not available"; "Credentials not available"] /\
  map levelname (log_records Script.no_credentials) = ["ERROR"; "ERROR"].
Proof. repeat split; reflexivity. Qed.

(** ** The worker and the producing thread *)

Lemma written_app (rs : list LogRecord) (record : LogRecord) (fs : sinks) :
  written (rs ++ [record]) fs = write_log record (written rs fs).
Proof. unfold written; now rewrite fold_left_app. Qed.

(** Each file receives the lines of its own records, in the order of the
    records. *)
Lemma written_sink_text (rs : list LogRecord) :
  forall fs,
    written rs fs =
    {| info_log_file := info_log_file fs ++ sink_text false rs;
       error_log_file := error_log_file fs ++ sink_text true rs |}.
Proof.
  induction rs as [|record rs IH]; intros fs.
  - simpl; rewrite !TextFacts.append_nil_r; now destruct fs.
  - change (written (record :: rs) fs) with (written rs (write_log record fs)).
    rewrite IH; unfold write_log; cbn [sink_text].
    destruct (String.eqb (levelname record) "ERROR");
      cbn [info_log_file error_log_file Bool.eqb];
      now rewrite ?TextFacts.append_assoc.
Qed.

Lemma before_sentinel_records (rs : list LogRecord) (rest : list queue_item) :
  before_sentinel (map Some rs ++ rest) = rs ++ before_sentinel rest.
Proof. induction rs as [|r rs IH]; simpl; [reflexivity | now rewrite IH]. Qed.

Lemma consistent_start (items : list queue_item) (fs : sinks) :
  consistent items fs items (start fs).
Proof. exists []; split; reflexivity. Qed.

Lemma consistent_put items fs item pending p :
  consistent items fs (item :: pending) p ->
  consistent items fs pending (put item p).
Proof.
  intros (rs & Hfiles & Hitems); exists rs; split; [exact Hfiles|].
  unfold put; cbn [worker log_queue].
  destruct (worker p); [..|destruct Hitems as [record Hitems]; exists record];
    rewrite Hitems, <- !app_assoc; reflexivity.
Qed.

Lemma consistent_run_step items fs write_ok pending p :
  consistent items fs pending p ->
  consistent items fs pending (run_step write_ok p).
Proof.
  intros (rs & Hfiles & Hitems); unfold run_step.
  destruct (worker p) eqn:Hw;
    try (exists rs; rewrite Hw; split; assumption).
  destruct (log_queue p) as [|[record|] q] eqn:Hq.
  - exists rs; rewrite Hw, Hq; split; assumption.
  - destruct write_ok.
    + exists (rs ++ [record]); cbn [files worker log_queue]; split.
      * now rewrite written_app, Hfiles.
      * rewrite Hitems, map_app, <- app_assoc; reflexivity.
    + exists rs; cbn [files worker log_queue]; split; [exact Hfiles|].
      exists record; exact Hitems.
  - exists rs; cbn [files worker log_queue]; split; assumption.
Qed.

(** The invariant of the two threads, under every schedule. *)
Lemma interleave_consistent items fs sched :
  forall pending p,
    consistent items fs pending p ->
    consistent items fs (fst (interleave sched pending p))
                        (snd (interleave sched pending p)).
Proof.
  induction sched as [|[|write_ok] sched IH]; intros pending p H;
    cbn [interleave].
  - exact H.
  - destruct pending as [|item pending]; [now apply IH|].
    now apply IH, consistent_put.
  - now apply IH, consistent_run_step.
Qed.

(** What the invariant says of the files: they hold the records of a first
    part of what was put before the first sentinel, and all of them once the
    worker has left its loop on the sentinel. *)
Lemma consistent_files items fs pending p :
  consistent items fs pending p ->
  (exists n, n <= length (before_sentinel items) /\
             files p = written (firstn n (before_sentinel items)) fs) /\
  (worker p = Exited -> files p = written (before_sentinel items) fs).
Proof.
  intros (rs & Hfiles & Hitems).
  assert (Hpre : exists rest, before_sentinel items = rs ++ rest).
  { destruct (worker p); [..|destruct Hitems as [record Hitems]];
      rewrite Hitems, before_sentinel_records; eauto. }
  destruct Hpre as [rest Hpre].
  split.
  - exists (length rs); rewrite Hpre, length_app; split; [lia|].
    now rewrite firstn_app, Nat.sub_diag, firstn_all, firstn_O, app_nil_r.
  - intros Hw; rewrite Hw in Hitems.
    rewrite Hitems, before_sentinel_records; cbn [before_sentinel].
    now rewrite app_nil_r.
Qed.

(** With the worker not scheduled, the producing thread makes all its calls
    and returns. *)
Lemma producer_alone (items : list queue_item) :
  forall p,
    interleave (repeat Producer (length items)) items p =
    ([], {| log_queue := log_queue p ++ items; worker := worker p;
            files := files p |}).
Proof.
  induction items as [|item items IH]; intros p; cbn [length repeat interleave].
  - rewrite app_nil_r; now destruct p.
  - rewrite IH; unfold put; cbn [log_queue worker files].
    now rewrite <- app_assoc.
Qed.

(** A worker whose writes succeed takes every record and then the
    sentinel. *)
Lemma worker_drains (rs : list LogRecord) :
  forall fs later,
    interleave (repeat (Consumer true) (S (length rs))) []
      {| log_queue := map Some rs ++ None :: later; worker := Running;
         files := fs |} =
    ([], {| log_queue := later; worker := Exited; files := written rs fs |}).
Proof.
  induction rs as [|record rs IH]; intros fs later.
  - reflexivity.
  - change (S (length (record :: rs))) with (S (S (length rs))).
    cbn [repeat interleave] in IH |- *.
    unfold run_step at 1; cbn [worker log_queue map app files].
    exact (IH (write_log record fs) later).
Qed.

Lemma interleave_app (s1 s2 : list turn) :
  forall pending p,
    interleave (s1 ++ s2) pending p =
    interleave s2 (fst (interleave s1 pending p))
                  (snd (interleave s1 pending p)).
Proof.
  induction s1 as [|[|write_ok] s1 IH]; intros pending p; cbn [app interleave].
  - reflexivity.
  - destruct pending; apply IH.
  - apply IH.
Qed.

(** A worker that has left its loop, on the sentinel or on an exception,
    does nothing any more; the producing thread goes on putting. *)
Lemma stopped_worker (sched : list turn) :
  forall pending p,
    worker p <> Running ->
    interleave sched pending p =
    (skipn (producer_turns sched) pending,
     {| log_queue := log_queue p ++ firstn (producer_turns sched) pending;
        worker := worker p; files := files p |}).
Proof.
  induction sched as [|[|write_ok] sched IH]; intros pending p Hw;
    cbn [interleave].
  - cbn; rewrite app_nil_r; now destruct p.
  - change (producer_turns (Producer :: sched))
      with (S (producer_turns sched)).
    destruct pending as [|item pending].
    + rewrite (IH [] p Hw), skipn_nil, firstn_nil; reflexivity.
    + rewrite (IH pending (put item p) Hw); unfold put;
        cbn [log_queue worker files skipn firstn].
      now rewrite <- app_assoc.
  - change (producer_turns (Consumer write_ok :: sched))
      with (producer_turns sched).
    replace (run_step write_ok p) with p; [now apply IH|].
    unfold run_step; destruct (worker p); congruence.
Qed.



(** C4, as the code has it: nothing catches the failure of a write.  The
    worker leaves its loop for good, the record is neither written nor tried
    again, and no record behind it in the queue is ever written: whatever the
    schedule afterwards, the files stay as they were.  The producing thread is
    not touched: every call it still has to make goes through. *)
Theorem failed_write_ends_worker :
  forall (p : process) (record : LogRecord) (q pending : list queue_item)
         (sched : list turn),
    worker p = Running ->
    log_queue p = Some record :: q ->
    run_step false p =
      {| log_queue := q; worker := Died; files := files p |} /\
    interleave sched pending (run_step false p) =
      (skipn (producer_turns sched) pending,
       {| log_queue := q ++ firstn (producer_turns sched) pending;
          worker := Died; files := files p |}).
Proof.
  intros p record q pending sched Hw Hq.
  assert (Hstep : run_step false p =
                  {| log_queue := q; worker := Died; files := files p |}).
  { unfold run_step; now rewrite Hw, Hq. }
  split; [exact Hstep|].
  rewrite Hstep, stopped_worker by discriminate; reflexivity.
Qed.

Lemma failed_write_ends_worker_witness :
  worker (snd (interleave (repeat Producer 4)
                 (enqueued Script.three_uploads)
                 (start Script.empty_files))) = Running /\
  interleave [Consumer true; Consumer true; Consumer true] []
    (run_step false
       (snd (interleave (repeat Producer 4) (enqueued Script.three_uploads)
               (start Script.empty_files)))) =
  ([], {| log_queue := tl (enqueued Script.three_uploads); worker := Died;
          files := Script.empty_files |}).
Proof.
  split; [reflexivity|].
  exact (proj2 (failed_write_ends_worker
    (snd (interleave (repeat Producer 4) (enqueued Script.three_uploads)
            (start Script.empty_files)))
    {| asctime := "2024-03-07 09:05:41,896"; levelname := "INFO";
       message := "File a.txt uploaded to bk" |}
    (tl (enqueued Script.three_uploads)) []
    [Consumer true; Consumer true; Consumer true] eq_refl eq_refl)).
Defined.

(** C4 as stated fails: three records and the sentinel are in the queue, the
    first write fails; the worker is dead, the two records behind are still in
    the queue and the files are empty, although the worker was given three
    more turns. *)
Lemma worker_does_not_survive_failed_write :
  log_records Script.three_uploads <> [] /\
  interleave Script.first_write_fails (enqueued Script.three_uploads)
    (start Script.empty_files) =
  ([], {| log_queue := tl (enqueued Script.three_uploads); worker := Died;
          files := Script.empty_files |}) /\
  length (tl (enqueued Script.three_uploads)) = 3.
Proof. repeat split; try reflexivity; discriminate. Qed.

(** ** Runs of the upload and the worker *)

Section RunAndWorker.

Variable World : Type.
Variable open_and_upload :
  World -> string -> string -> string -> try_result * World.
Variable now : World -> datetime.

Local Abbreviation file_turn := (upload_file World open_and_upload now).
Local Abbreviation walk_loop := (upload_walk World open_and_upload now).
Local Abbreviation run := (upload_directory_to_s3 World open_and_upload now).

(** A run only adds to the calls made on the queue. *)
Lemma run_enqueued_extends local_directory root bucket_name
    (u : uploader World) :
  exists later,
    enqueued (run local_directory root bucket_name u) = enqueued u ++ later.
Proof.
  unfold upload_directory_to_s3, queue_put; cbn [enqueued].
  destruct (upload_walk_keeps World open_and_upload now
              (fun u' => exists l, enqueued u' = enqueued u ++ l))
    with (bucket_name := bucket_name)
         (triples := os_walk local_directory root) (u := u) as [l Hl].
  - intros subdir b file u0 [l Hl].
    destruct (upload_file_effect World open_and_upload now subdir b file u0)
      as (_ & _ & Hq & _).
    rewrite Hq, Hl, <- app_assoc; eauto.
  - exists []; now rewrite app_nil_r.
  - rewrite Hl, <- app_assoc; eauto.
Qed.

Lemma run_before_sentinel local_directory root bucket_name (w : World)
    (later : list queue_item) :
  before_sentinel
    (enqueued (run local_directory root bucket_name (begin w)) ++ later) =
  log_records (run local_directory root bucket_name (begin w)).
Proof.
  rewrite (run_enqueued World open_and_upload now), <- app_assoc.
  rewrite before_sentinel_records; cbn [app before_sentinel].
  apply app_nil_r.
Qed.

(** C3, as the code has it: the run ends with a [put] of the sentinel that
    does not wait; with the worker not yet scheduled the run has returned
    and every record is still in the queue.  The sentinel is behind every
    record of the run, so the worker, when its writes succeed, takes them
    all before it: once the worker has left its loop on the sentinel, every
    record put before it is in its file. *)
Theorem records_in_sinks_once_worker_exits :
  forall (local_directory bucket_name : string) (root : option node)
         (w : World) (fs : sinks) (sched : list turn),
    let u := run local_directory root bucket_name (begin w) in
    let items := enqueued u in
    items = map Some (log_records u) ++ [None] /\
    interleave (repeat Producer (length items)) items (start fs) =
      ([], {| log_queue := items; worker := Running; files := fs |}) /\
    interleave (repeat Producer (length items) ++
                repeat (Consumer true) (length items)) items (start fs) =
      ([], {| log_queue := []; worker := Exited;
              files := written (log_records u) fs |}) /\
    (worker (snd (interleave sched items (start fs))) = Exited ->
     files (snd (interleave sched items (start fs))) =
     written (log_records u) fs).
Proof.
  intros local_directory bucket_name root w fs sched u items.
  assert (Hitems : items = map Some (log_records u) ++ [None])
    by apply run_enqueued.
  assert (Halone :
    interleave (repeat Producer (length items)) items (start fs) =
    ([], {| log_queue := items; worker := Running; files := fs |}))
    by apply producer_alone.
  repeat split.
  - exact Hitems.
  - exact Halone.
  - rewrite interleave_app, Halone; cbn [fst snd].
    rewrite Hitems at 1 2.
    rewrite length_app, length_map, Nat.add_comm; cbn [length Nat.add].
    apply worker_drains.
  - intros Hw.
    destruct (consistent_files items fs _ _
                (interleave_consistent items fs sched items (start fs)
                   (consistent_start items fs))) as [_ Hexit].
    rewrite (Hexit Hw).
    f_equal. rewrite <- (app_nil_r items).
    apply run_before_sentinel.
Qed.

(** C10, as the code has it: the queue and the worker are the ones made at
    module initialisation, and a run always ends by putting the sentinel.
    In a second run of the same process every [put] comes behind the
    sentinel of the first run.  Whatever the schedule, the files only ever
    hold records of the first run, and all of them once the worker has left
    its loop; a worker that has left its loop takes nothing more off the
    queue.  The worker leaves its loop when it reaches the sentinel, which
    may be after the run has returned. *)
Theorem second_run_never_written :
  forall (dir1 bucket1 dir2 bucket2 : string) (root1 root2 : option node)
         (w : World) (fs : sinks) (sched : list turn),
    let u1 := run dir1 root1 bucket1 (begin w) in
    let u2 := run dir2 root2 bucket2 u1 in
    let p := snd (interleave sched (enqueued u2) (start fs)) in
    (exists later,
        enqueued u2 = map Some (log_records u1) ++ None :: later) /\
    (exists n, n <= length (log_records u1) /\
               files p = written (firstn n (log_records u1)) fs) /\
    (worker p = Exited -> files p = written (log_records u1) fs) /\
    (forall (write_ok : bool) (q : list queue_item) (fs' : sinks),
        run_step write_ok
          {| log_queue := q; worker := Exited; files := fs' |} =
        {| log_queue := q; worker := Exited; files := fs' |}).
Proof.
  intros dir1 bucket1 dir2 bucket2 root1 root2 w fs sched u1 u2 p.
  destruct (run_enqueued_extends dir2 root2 bucket2 u1) as [later Hlater].
  fold u2 in Hlater.
  assert (Hbefore : before_sentinel (enqueued u2) = log_records u1).
  { rewrite Hlater; apply run_before_sentinel. }
  destruct (consistent_files (enqueued u2) fs _ _
              (interleave_consistent (enqueued u2) fs sched (enqueued u2)
                 (start fs) (consistent_start (enqueued u2) fs)))
    as [Hpart Hexit].
  fold p in Hpart, Hexit; rewrite Hbefore in Hpart, Hexit.
  repeat split.
  - exists later. rewrite Hlater.
    unfold u1; rewrite (run_enqueued World open_and_upload now).
    now rewrite <- app_assoc.
  - exact Hpart.
  - exact Hexit.
Qed.

End RunAndWorker.

Lemma records_in_sinks_once_worker_exits_witness :
  worker (snd (interleave Script.alternating
                 (enqueued Script.deleted_in_between)
                 (start Script.empty_files))) = Exited /\
  files (snd (interleave Script.alternating
                (enqueued Script.deleted_in_between)
                (start Script.empty_files))) =
  written (log_records Script.deleted_in_between) Script.empty_files.
Proof.
  split; [reflexivity|].
  exact (proj2 (proj2 (proj2
    (records_in_sinks_once_worker_exits Script.world Script.open_and_upload
       Script.now "./test_files" "bk" (Some Script.three_files)
       [Uploaded; RaisedFileNotFoundError; Uploaded] Script.empty_files
       Script.alternating))) eq_refl).
Defined.

(** C3 as stated fails: the run has made its two calls and returned, the
    worker has not run, the record of the upload is in the queue and in no
    file. *)
Lemma run_returns_before_worker_drains :
  log_records Script.one_upload =
    [{| asctime := "2024-03-07 09:05:41,896"; levelname := "INFO";
        message := "File a.txt uploaded to bk" |}] /\
  interleave [Producer; Producer] (enqueued Script.one_upload)
    (start Script.empty_files) =
  ([], {| log_queue := enqueued Script.one_upload; worker := Running;
          files := Script.empty_files |}).
Proof. split; reflexivity. Qed.

Lemma second_run_never_written_witness :
  worker (snd (interleave
                 (repeat Producer 6 ++ repeat (Consumer true) 6)
                 (enqueued (upload_directory_to_s3 Script.world
                              Script.open_and_upload Script.now
                              "./test_files" (Some Script.one_file) "bk"
                              Script.deleted_in_between))
                 (start Script.empty_files))) = Exited /\
  files (snd (interleave
                (repeat Producer 6 ++ repeat (Consumer true) 6)
                (enqueued (upload_directory_to_s3 Script.world
                             Script.open_and_upload Script.now
                             "./test_files" (Some Script.one_file) "bk"
                             Script.deleted_in_between))
                (start Script.empty_files))) =
  written (log_records Script.deleted_in_between) Script.empty_files.
Proof.
  split; [reflexivity|].
  exact (proj1 (proj2 (proj2
    (second_run_never_written Script.world Script.open_and_upload Script.now
       "./test_files" "bk" "./test_files" "bk"
       (Some Script.three_files) (Some Script.one_file)
       [Uploaded; RaisedFileNotFoundError; Uploaded] Script.empty_files
       (repeat Producer 6 ++ repeat (Consumer true) 6)))) eq_refl).
Defined.

(** C10 as stated fails: the run has put the sentinel and returned, and the
    worker, not yet scheduled, has neither taken the sentinel nor left its
    loop. *)
Lemma worker_running_when_run_returns :
  interleave [Producer] (enqueued Script.missing_root)
    (start Script.empty_files) =
  ([], {| log_queue := [None]; worker := Running;
          files := Script.empty_files |}).
Proof. reflexivity. Qed.

(** * Further properties of the code *)

(** ** The walk and the uploads *)

Lemma subsequence_refl {A : Type} (l : list A) : subsequence l l.
Proof. induction l; constructor; assumption. Qed.

Lemma subsequence_nil_l {A : Type} (l : list A) : subsequence [] l.
Proof. induction l; constructor; assumption. Qed.

Lemma subsequence_firstn {A : Type} (k : nat) (l : list A) :
  subsequence (firstn k l) l.
Proof.
  revert k; induction l as [|x l IH]; intros [|k]; simpl.
  - constructor.
  - constructor.
  - apply subsequence_nil_l.
  - constructor; apply IH.
Qed.

Lemma in_firstn {A : Type} (k : nat) (x : A) (l : list A) :
  In x (firstn k l) -> In x l.
Proof.
  intros H; rewrite <- (firstn_skipn k l); apply in_or_app; now left.
Qed.

Lemma subsequence_app {A : Type} (a a' b b' : list A) :
  subsequence a a' -> subsequence b b' -> subsequence (a ++ b) (a' ++ b').
Proof.
  intros Ha Hb; induction Ha; simpl; try constructor; assumption.
Qed.

Section WalkFacts.

Variable World : Type.
Variable open_and_upload :
  World -> string -> string -> string -> try_result * World.
Variable now : World -> datetime.

Local Abbreviation file_turn := (upload_file World open_and_upload now).
Local Abbreviation files_loop := (upload_files World open_and_upload now).
Local Abbreviation walk_loop := (upload_walk World open_and_upload now).
Local Abbreviation run := (upload_directory_to_s3 World open_and_upload now).

(** What the inner loop adds to [uploads]: the first [k] files of the
    directory, each under its own name as key; an upload that ended with
    NoCredentialsError is the last one, and the loop stops short of the end
    only on such an upload. *)
Lemma upload_files_prefix subdir bucket_name files :
  forall u : uploader World,
    exists new,
      uploads (files_loop subdir bucket_name files u) = uploads u ++ new /\
      map (fun a => (upload_path a, upload_key a)) new =
        map (fun f => (path_join subdir f, f)) (firstn (length new) files) /\
      length new <= length files /\
      (forall l1 a l2, new = l1 ++ a :: l2 ->
                       upload_result a = RaisedNoCredentialsError -> l2 = []) /\
      (length new < length files ->
       exists l a, new = l ++ [a] /\
                   upload_result a = RaisedNoCredentialsError).
Proof.
  induction files as [|file rest IH]; intros u.
  - exists []; cbn; rewrite app_nil_r; repeat split; auto; try lia.
    intros [|? ?] a l2 H; discriminate.
  - cbn [upload_files].
    destruct (upload_file_effect World open_and_upload now
                subdir bucket_name file u) as (_ & Hup & _ & _ & Hstop).
    destruct (file_turn subdir bucket_name file u) as [u' stop].
    cbn [fst snd] in Hup, Hstop.
    set (r := fst (open_and_upload (env u) (path_join subdir file)
                     bucket_name file)) in *.
    destruct stop.
    + exists [(path_join subdir file, file, r)].
      assert (Hr : r = RaisedNoCredentialsError)
        by (destruct r; congruence).
      repeat split; auto.
      * cbn; lia.
      * intros [|x [|y l1]] a l2 H; inversion H; auto.
      * intros _; exists [], (path_join subdir file, file, r); auto.
    + destruct (IH u') as (new & Hnew & Hmap & Hlen & Hlast & Hshort).
      assert (Hr : r <> RaisedNoCredentialsError)
        by (destruct r; congruence).
      exists ((path_join subdir file, file, r) :: new).
      repeat split.
      * rewrite Hnew, Hup, <- app_assoc; reflexivity.
      * cbn [length firstn map]; rewrite Hmap; reflexivity.
      * cbn [length]; lia.
      * intros [|x l1] a l2 H Ha; inversion H; subst.
        -- contradiction.
        -- eapply Hlast; eauto.
      * cbn [length]; intros Hlt.
        destruct Hshort as (l & a & Hl & Ha); [lia|].
        exists ((path_join subdir file, file, r) :: l), a.
        rewrite Hl; auto.
Qed.

Lemma at_most_one_last {A : Type} (P : A -> bool) (new : list A) :
  (forall l1 a l2, new = l1 ++ a :: l2 -> P a = true -> l2 = []) ->
  length (filter P new) <= 1.
Proof.
  induction new as [|x rest IH]; intros H; [simpl; lia|].
  simpl; destruct (P x) eqn:Hx.
  - rewrite (H [] x rest eq_refl Hx); simpl; lia.
  - apply IH; intros l1 a l2 Hl Ha.
    apply (H (x :: l1) a l2); [now rewrite Hl | exact Ha].
Qed.

(** What the two loops add to [uploads], directory by directory. *)
Lemma upload_walk_shape bucket_name triples :
  forall u : uploader World,
    exists new,
      uploads (walk_loop bucket_name triples u) = uploads u ++ new /\
      subsequence (map upload_path new)
        (flat_map (fun t => map (path_join (fst (fst t))) (snd t)) triples) /\
      (forall a, In a new ->
         exists t, In t triples /\ In (upload_key a) (snd t) /\
                   upload_path a = path_join (fst (fst t)) (upload_key a)) /\
      length (filter (fun a => is_no_credentials (upload_result a)) new) <=
        length triples.
Proof.
  induction triples as [|[[subdir dirs] files] rest IH]; intros u.
  - exists []; cbn; rewrite app_nil_r; repeat split; auto.
    + constructor.
    + intros a [].
  - cbn [upload_walk].
    destruct (upload_files_prefix subdir bucket_name files u)
      as (new1 & Hnew1 & Hmap & _ & Hlast & _).
    destruct (IH (files_loop subdir bucket_name files u))
      as (new2 & Hnew2 & Hsub & Hkeys & Hcount).
    assert (Hpaths : map upload_path new1 =
                     firstn (length new1) (map (path_join subdir) files)).
    { rewrite firstn_map.
      apply (f_equal (map fst)) in Hmap.
      rewrite !map_map in Hmap; exact Hmap. }
    exists (new1 ++ new2); repeat split.
    + rewrite Hnew2, Hnew1, <- app_assoc; reflexivity.
    + rewrite map_app; cbn [flat_map fst snd].
      apply subsequence_app; [|exact Hsub].
      rewrite Hpaths; apply subsequence_firstn.
    + intros a Ha; apply in_app_or in Ha; destruct Ha as [Ha | Ha].
      * exists (subdir, dirs, files); cbn [fst snd].
        assert (Hin : In (upload_path a, upload_key a)
                        (map (fun f => (path_join subdir f, f))
                             (firstn (length new1) files))).
        { rewrite <- Hmap.
          apply (in_map (fun a => (upload_path a, upload_key a))), Ha. }
        apply in_map_iff in Hin; destruct Hin as (f & Hf & Hfin).
        inversion Hf as [[Hp Hk]].
        split; [now left|]. split.
        -- rewrite <- Hk. eapply in_firstn; eassumption.
        -- congruence.
      * destruct (Hkeys a Ha) as (t & Ht & Hk); exists t; split;
          [now right | exact Hk].
    + rewrite filter_app, length_app; cbn [length].
      pose proof (at_most_one_last
                    (fun a => is_no_credentials (upload_result a)) new1)
        as Hone.
      assert (length (filter (fun a => is_no_credentials (upload_result a))
                        new1) <= 1).
      { apply Hone; intros l1 a l2 Hl Ha; eapply Hlast; eauto.
        destruct (upload_result a); simpl in Ha; congruence. }
      lia.
Qed.

Lemma run_uploads local_directory root bucket_name (u : uploader World) :
  uploads (run local_directory root bucket_name u) =
  uploads (walk_loop bucket_name (os_walk local_directory root) u).
Proof. reflexivity. Qed.

(** X1: the uploads of a run are tried in the order of the walk: their paths
    are the enumerated files with some left out, none added, none moved. *)
Theorem uploads_follow_walk_order :
  forall (local_directory bucket_name : string) (root : option node)
         (w : World),
    subsequence
      (map upload_path
         (uploads (run local_directory root bucket_name (begin w))))
      (enumerated local_directory root).
Proof.
  intros local_directory bucket_name root w.
  rewrite run_uploads.
  destruct (upload_walk_shape bucket_name (os_walk local_directory root)
              (begin w)) as (new & Hnew & Hsub & _).
  rewrite Hnew; exact Hsub.
Qed.

(** X2: every upload of a run is made under the name of the file as key,
    whatever the directory the walk found it in: its path is the directory
    joined with the key, and the key is one of the files of that
    directory. *)
Theorem upload_key_is_file_name :
  forall (local_directory bucket_name : string) (root : option node)
         (w : World) (a : string * string * try_result),
    In a (uploads (run local_directory root bucket_name (begin w))) ->
    exists subdir dirs files,
      In (subdir, dirs, files) (os_walk local_directory root) /\
      In (upload_key a) files /\
      upload_path a = path_join subdir (upload_key a).
Proof.
  intros local_directory bucket_name root w a Ha.
  rewrite run_uploads in Ha.
  destruct (upload_walk_shape bucket_name (os_walk local_directory root)
              (begin w)) as (new & Hnew & _ & Hkeys & _).
  rewrite Hnew in Ha; cbn in Ha.
  destruct (Hkeys a Ha) as ([[subdir dirs] files] & Ht & Hk & Hp).
  exists subdir, dirs, files; auto.
Qed.

(** X3: the uploads that end with NoCredentialsError are at most one for
    each directory the walk yields. *)
Theorem one_credentials_error_per_directory :
  forall (local_directory bucket_name : string) (root : option node)
         (w : World),
    length (filter (fun a => is_no_credentials (upload_result a))
              (uploads (run local_directory root bucket_name (begin w)))) <=
    length (os_walk local_directory root).
Proof.
  intros local_directory bucket_name root w.
  rewrite run_uploads.
  destruct (upload_walk_shape bucket_name (os_walk local_directory root)
              (begin w)) as (new & Hnew & _ & _ & Hcount).
  rewrite Hnew; exact Hcount.
Qed.

Lemma walk_flat (top : string) (entries : list (string * node)) :
  flat (Dir entries) = true ->
  walk top (Dir entries) = [(top, dirnames entries, filenames entries)].
Proof.
  intros Hflat; cbn [walk]; f_equal.
  cbn [flat] in Hflat.
  induction entries as [|[name child] rest IH]; [reflexivity|].
  cbn [forallb snd] in Hflat; apply andb_prop in Hflat.
  destruct Hflat as [Hchild Hrest].
  destruct child; [|discriminate].
  cbn [walk app]; apply IH, Hrest.
Qed.

(** X4: in a directory that holds files only, the uploads stop at the first
    one that ends with NoCredentialsError: the files tried are the first ones
    of the enumeration, an upload that ended with NoCredentialsError is the
    last one, and files are left untried only after such an upload. *)
Theorem flat_directory_halts_on_credentials :
  forall (local_directory bucket_name : string)
         (entries : list (string * node)) (w : World),
    flat (Dir entries) = true ->
    let u := run local_directory (Some (Dir entries)) bucket_name (begin w) in
    let all := enumerated local_directory (Some (Dir entries)) in
    map upload_path (uploads u) = firstn (length (uploads u)) all /\
    length (uploads u) <= length all /\
    (forall l1 a l2, uploads u = l1 ++ a :: l2 ->
                     upload_result a = RaisedNoCredentialsError -> l2 = []) /\
    (length (uploads u) < length all ->
     exists l a, uploads u = l ++ [a] /\
                 upload_result a = RaisedNoCredentialsError).
Proof.
  intros local_directory bucket_name entries w Hflat u all.
  unfold all, enumerated, os_walk; rewrite (walk_flat _ _ Hflat).
  cbn [flat_map fst snd]; rewrite app_nil_r, length_map.
  unfold u; rewrite run_uploads; unfold os_walk.
  rewrite (walk_flat _ _ Hflat); cbn [upload_walk].
  destruct (upload_files_prefix local_directory bucket_name
              (filenames entries) (begin w))
    as (new & Hnew & Hmap & Hlen & Hlast & Hshort).
  cbn [begin uploads app] in Hnew; rewrite Hnew.
  repeat split; auto.
  rewrite firstn_map.
  apply (f_equal (map fst)) in Hmap; rewrite !map_map in Hmap; exact Hmap.
Qed.

Lemma upload_file_reported_once subdir bucket_name file u :
  reported_once u ->
  reported_once (fst (file_turn subdir bucket_name file u)).
Proof.
  unfold reported_once; intros [Hall Hout].
  destruct (upload_file_effect World open_and_upload now
              subdir bucket_name file u) as (_ & Hup & Hq & Hc & _).
  rewrite (log_records_app World u _ _ Hq), Hup, Hc.
  rewrite !filter_app, !length_app.
  destruct (fst (open_and_upload _ _ _ _)); cbn; lia.
Qed.


Lemma upload_file_routed_by_result subdir bucket_name file u :
  routed_by_result u ->
  routed_by_result (fst (file_turn subdir bucket_name file u)).
Proof.
  unfold routed_by_result; intros (Herr & Hinfo & Hlevels).
  destruct (upload_file_effect World open_and_upload now
              subdir bucket_name file u) as (_ & Hup & Hq & _).
  rewrite (log_records_app World u _ _ Hq), Hup.
  rewrite !filter_app, !length_app, Herr, Hinfo.
  destruct (fst (open_and_upload _ _ _ _)); cbn;
    (split; [reflexivity | split; [reflexivity|]]);
    rewrite ?app_nil_r; try exact Hlevels;
    apply Forall_app; split; try exact Hlevels;
    constructor; cbn; auto.
Qed.

(** X6: the records of a run go where the results say: as many records are
    routed to the error file as uploads ended with FileNotFoundError or
    NoCredentialsError, as many to the info file as uploads went through, and
    every record has the level name INFO or ERROR. *)
Theorem records_routed_by_result :
  forall (local_directory bucket_name : string) (root : option node)
         (w : World),
    let u := run local_directory root bucket_name (begin w) in
    length (filter is_error_record (log_records u)) =
      length (filter (fun a => is_error_logged (upload_result a))
                (uploads u)) /\
    length (filter (fun r => negb (is_error_record r)) (log_records u)) =
      length (filter (fun a => is_uploaded (upload_result a)) (uploads u)) /\
    Forall (fun r => levelname r = "INFO" \/ levelname r = "ERROR")
           (log_records u).
Proof.
  intros local_directory bucket_name root w u.
  unfold u; rewrite (run_log_records World open_and_upload now).
  unfold upload_directory_to_s3; cbn [queue_put uploads].
  apply (upload_walk_keeps World open_and_upload now routed_by_result).
  - intros; now apply upload_file_routed_by_result.
  - repeat split; constructor.
Qed.

Lemma upload_walk_no_files bucket_name triples :
  flat_map (fun t => map (path_join (fst (fst t))) (snd t)) triples = [] ->
  forall u : uploader World, walk_loop bucket_name triples u = u.
Proof.
  induction triples as [|[[subdir dirs] files] rest IH]; intros Hnone u;
    [reflexivity|].
  cbn [flat_map fst snd] in Hnone.
  apply app_eq_nil in Hnone; destruct Hnone as [Hfiles Hrest].
  apply map_eq_nil in Hfiles; subst files.
  cbn [upload_walk upload_files]; now apply IH.
Qed.


End WalkFacts.

Lemma upload_key_is_file_name_witness :
  In ("./test_files/sub/a.txt", "a.txt", Uploaded)
     (uploads MoreScript.same_name_uploads) /\
  exists subdir dirs files,
    In (subdir, dirs, files)
       (os_walk "./test_files" (Some MoreScript.same_name_twice)) /\
    In "a.txt" files /\
    "./test_files/sub/a.txt" = path_join subdir "a.txt".
Proof.
  assert (Hin : In ("./test_files/sub/a.txt", "a.txt", Uploaded)
                   (uploads MoreScript.same_name_uploads))
    by (right; left; reflexivity).
  split; [exact Hin|].
  exact (upload_key_is_file_name Script.world Script.open_and_upload
           Script.now "./test_files" "bk" (Some MoreScript.same_name_twice)
           [] _ Hin).
Defined.

Lemma flat_directory_halts_on_credentials_witness :
  flat Script.three_files = true /\
  map upload_path (uploads MoreScript.halted_in_flat) =
  firstn 2 (enumerated "./test_files" (Some Script.three_files)).
Proof.
  split; [reflexivity|].
  exact (proj1 (flat_directory_halts_on_credentials Script.world
                  Script.open_and_upload Script.now "./test_files" "bk"
                  [("a.txt", File); ("b.txt", File); ("c.txt", File)]
                  [Uploaded; RaisedNoCredentialsError] eq_refl)).
Defined.


(** ** The worker under every schedule *)

(** X8: the worker leaves its loop normally only on a sentinel: if it has
    exited, a [None] was put, behind records only; when no [None] is ever put
    the worker never exits. *)
Theorem worker_exits_only_on_sentinel :
  forall (items : list queue_item) (fs : sinks) (sched : list turn),
    worker (snd (interleave sched items (start fs))) = Exited ->
    exists rs later, items = map Some rs ++ None :: later.
Proof.
  intros items fs sched Hw.
  destruct (interleave_consistent items fs sched items (start fs)
              (consistent_start items fs)) as (rs & _ & Hitems).
  rewrite Hw in Hitems; eauto.
Qed.

Lemma worker_exits_only_on_sentinel_witness :
  worker (snd (interleave Script.alternating
                 (enqueued Script.deleted_in_between)
                 (start Script.empty_files))) = Exited /\
  exists rs later,
    enqueued Script.deleted_in_between = map Some rs ++ None :: later.
Proof.
  split; [reflexivity|].
  exact (worker_exits_only_on_sentinel (enqueued Script.deleted_in_between)
           Script.empty_files Script.alternating eq_refl).
Defined.

Lemma run_step_ok_alive (p : process) :
  worker p <> Died -> worker (run_step true p) <> Died.
Proof.
  unfold run_step; intros H.
  destruct (worker p) eqn:Hw; try (rewrite Hw; exact H).
  destruct (log_queue p) as [|[record|] q]; cbn; congruence.
Qed.

Lemma interleave_alive (sched : list turn) :
  writes_succeed sched = true ->
  forall pending p,
    worker p <> Died ->
    worker (snd (interleave sched pending p)) <> Died.
Proof.
  induction sched as [|[|write_ok] sched IH]; intros Hok pending p Hp;
    cbn [interleave].
  - exact Hp.
  - destruct pending; apply IH; auto.
  - cbn in Hok; apply andb_prop in Hok; destruct Hok as [-> Hok].
    apply IH; [exact Hok | now apply run_step_ok_alive].
Qed.

(** X9: the worker ends on an exception only when a write fails: under a
    schedule in which every write succeeds it is running or has exited on the
    sentinel, whatever is put on the queue. *)
Theorem worker_dies_only_on_failed_write :
  forall (items : list queue_item) (fs : sinks) (sched : list turn),
    writes_succeed sched = true ->
    worker (snd (interleave sched items (start fs))) <> Died.
Proof.
  intros items fs sched Hok.
  apply interleave_alive; [exact Hok | discriminate].
Qed.

Lemma worker_dies_only_on_failed_write_witness :
  writes_succeed Script.alternating = true /\
  worker (snd (interleave Script.alternating
                 (enqueued Script.deleted_in_between)
                 (start Script.empty_files))) <> Died.
Proof.
  split; [reflexivity|].
  exact (worker_dies_only_on_failed_write
           (enqueued Script.deleted_in_between) Script.empty_files
           Script.alternating eq_refl).
Defined.

Lemma written_cons (record : LogRecord) (rs : list LogRecord) (fs : sinks) :
  written (record :: rs) fs = written rs (write_log record fs).
Proof. reflexivity. Qed.

Lemma written_append (rs1 rs2 : list LogRecord) (fs : sinks) :
  written (rs1 ++ rs2) fs = written rs2 (written rs1 fs).
Proof. unfold written; apply fold_left_app. Qed.

(** A running worker whose writes succeed and that is given a turn for each
    item of a queue that holds a sentinel writes the records in front of the
    sentinel and exits. *)
Lemma worker_reaches_sentinel (q : list queue_item) :
  In None q ->
  forall n fs,
    length q <= n ->
    exists rest,
      interleave (repeat (Consumer true) n) []
        {| log_queue := q; worker := Running; files := fs |} =
      ([], {| log_queue := rest; worker := Exited;
              files := written (before_sentinel q) fs |}).
Proof.
  induction q as [|[record|] q IH]; intros Hin n fs Hn.
  - destruct Hin.
  - destruct Hin as [Hin | Hin]; [discriminate|].
    destruct n as [|n]; [cbn in Hn; lia|].
    cbn [repeat interleave]; unfold run_step at 1;
      cbn [worker log_queue files].
    destruct (IH Hin n (write_log record fs)) as [rest Hrest];
      [cbn in Hn; lia|].
    exists rest; rewrite Hrest; reflexivity.
  - destruct n as [|n]; [cbn in Hn; lia|].
    cbn [repeat interleave]; unfold run_step at 1;
      cbn [worker log_queue files before_sentinel].
    rewrite stopped_worker by discriminate.
    cbn [log_queue worker files skipn firstn]; rewrite firstn_nil, skipn_nil.
    exists (q ++ []); reflexivity.
Qed.

(** X10: no schedule in which the writes succeed can block the logging for
    good.  Whatever has happened so far, if a sentinel is among the calls of
    the producing thread, then letting that thread make its remaining calls
    and giving the worker one turn for each item brings the worker to exit
    with every record put before the sentinel in its file. *)
Theorem logging_can_always_complete :
  forall (items : list queue_item) (fs : sinks) (sched : list turn),
    writes_succeed sched = true ->
    In None items ->
    let pending := fst (interleave sched items (start fs)) in
    let p := snd (interleave sched items (start fs)) in
    let final :=
      interleave (repeat Producer (length pending) ++
                  repeat (Consumer true) (length items)) pending p in
    fst final = [] /\
    worker (snd final) = Exited /\
    files (snd final) = written (before_sentinel items) fs.
Proof.
  intros items fs sched Hok Hnone pending p final.
  pose proof (interleave_consistent items fs sched items (start fs)
                (consistent_start items fs)) as Hcons.
  fold pending in Hcons; fold p in Hcons.
  assert (Halive : worker p <> Died)
    by (apply interleave_alive; [exact Hok | discriminate]).
  unfold final; rewrite interleave_app, producer_alone; cbn [fst snd].
  destruct Hcons as (rs & Hfiles & Hitems).
  destruct (worker p) eqn:Hw; [| |congruence].
  - assert (Hin : In None (log_queue p ++ pending)).
    { rewrite Hitems in Hnone; apply in_app_or in Hnone.
      destruct Hnone as [Hbad | Hin]; [|exact Hin].
      apply in_map_iff in Hbad; destruct Hbad as (r & Hr & _); discriminate. }
    destruct (worker_reaches_sentinel _ Hin (length items) (files p))
      as [rest Hrest].
    { rewrite Hitems, !length_app; lia. }
    rewrite Hrest; cbn [fst snd worker files].
    repeat split.
    rewrite Hfiles, <- written_append, Hitems, before_sentinel_records.
    reflexivity.
  - rewrite stopped_worker by (cbn; discriminate).
    cbn [fst snd worker files]; rewrite skipn_nil.
    repeat split.
    rewrite Hfiles, Hitems, before_sentinel_records; cbn [before_sentinel].
    now rewrite app_nil_r.
Qed.

Lemma logging_can_always_complete_witness :
  writes_succeed [Producer; Consumer true; Producer] = true /\
  In None (enqueued Script.deleted_in_between) /\
  files (snd (interleave
                (repeat Producer 2 ++ repeat (Consumer true) 4)
                (fst (interleave [Producer; Consumer true; Producer]
                        (enqueued Script.deleted_in_between)
                        (start Script.empty_files)))
                (snd (interleave [Producer; Consumer true; Producer]
                        (enqueued Script.deleted_in_between)
                        (start Script.empty_files))))) =
  written (log_records Script.deleted_in_between) Script.empty_files.
Proof.
  assert (Hin : In None (enqueued Script.deleted_in_between))
    by (do 3 right; left; reflexivity).
  split; [reflexivity|]. split; [exact Hin|].
  exact (proj2 (proj2
    (logging_can_always_complete (enqueued Script.deleted_in_between)
       Script.empty_files [Producer; Consumer true; Producer]
       eq_refl Hin))).
Defined.

(** ** Timestamps, lines and file names *)

Lemma append_inj_length (a a' b b' : string) :
  String.length a = String.length a' ->
  (a ++ b = a' ++ b')%string -> a = a' /\ b = b'.
Proof.
  revert a'; induction a as [|c a IH]; intros [|c' a'] Hlen H;
    try discriminate.
  - split; [reflexivity | exact H].
  - cbn in Hlen, H; inversion H; subst.
    destruct (IH a') as [-> ->]; auto.
Qed.

Lemma append_cancel_l (a b b' : string) :
  (a ++ b = a ++ b')%string -> b = b'.
Proof.
  intros H; apply (append_inj_length a a b b' eq_refl H).
Qed.

(** Two numbers that fit in [k] digits and print alike are equal. *)
Lemma zero_padded_inj (k : nat) (n m : N) :
  (n < 10 ^ N.of_nat k)%N -> (m < 10 ^ N.of_nat k)%N ->
  Text.zero_padded k n = Text.zero_padded k m -> n = m.
Proof.
  intros Hn Hm H.
  apply (f_equal Text.decimal_value) in H.
  rewrite !TextFacts.decimal_value_zero_padded in H.
  rewrite !N.mod_small in H; assumption.
Qed.

(** A padded field in front of a text can be told from the text. *)
Lemma zero_padded_field (k : nat) (n m : N) (rest rest' : string) :
  (n < 10 ^ N.of_nat k)%N -> (m < 10 ^ N.of_nat k)%N ->
  (Text.zero_padded k n ++ rest = Text.zero_padded k m ++ rest')%string ->
  n = m /\ rest = rest'.
Proof.
  intros Hn Hm H.
  apply append_inj_length in H;
    [|now rewrite !TextFacts.length_zero_padded].
  destruct H as [H ->]; split; [|reflexivity].
  now apply (zero_padded_inj k).
Qed.

Lemma skip_char (c : ascii) (rest rest' : string) :
  (String c "" ++ rest = String c "" ++ rest')%string -> rest = rest'.
Proof. intros H; now inversion H. Qed.

Ltac next_field H :=
  apply zero_padded_field in H; [|cbn; lia | cbn; lia];
  let Heq := fresh "Hfield" in
  destruct H as [Heq H];
  try apply skip_char in H.

(** X11: the timestamp of a record tells the instant it was made at, to the
    millisecond: two valid instants whose timestamps are equal have the same
    date, the same time of day to the second and the same milliseconds. *)
Theorem timestamp_tells_the_instant :
  forall t1 t2 : datetime,
    valid_datetime t1 -> valid_datetime t2 ->
    Text.drop_last3 (strftime t1) = Text.drop_last3 (strftime t2) ->
    year t1 = year t2 /\ month t1 = month t2 /\ day t1 = day t2 /\
    hour t1 = hour t2 /\ minute t1 = minute t2 /\ second t1 = second t2 /\
    (microsecond t1 / 1000 = microsecond t2 / 1000)%N.
Proof.
  intros t1 t2 (Hy1 & Hmo1 & Hd1 & Hh1 & Hmi1 & Hs1 & Hus1)
         (Hy2 & Hmo2 & Hd2 & Hh2 & Hmi2 & Hs2 & Hus2) H.
  rewrite !asctime_milliseconds in H.
  assert (Hms1 : (microsecond t1 / 1000 < 1000)%N)
    by (apply N.Div0.div_lt_upper_bound; exact Hus1).
  assert (Hms2 : (microsecond t2 / 1000 < 1000)%N)
    by (apply N.Div0.div_lt_upper_bound; exact Hus2).
  do 6 next_field H.
  apply zero_padded_inj in H; [|cbn; lia | cbn; lia].
  repeat split; assumption.
Qed.

Lemma timestamp_tells_the_instant_witness :
  valid_datetime Script.clock /\
  (microsecond Script.clock / 1000 = 896)%N.
Proof.
  assert (Hvalid : valid_datetime Script.clock)
    by (unfold valid_datetime; simpl; lia).
  split; [exact Hvalid|].
  pose proof (timestamp_tells_the_instant Script.clock
    {| year := 2024; month := 3; day := 7; hour := 9; minute := 5;
       second := 41; microsecond := 896000 |}%N Hvalid
    ltac:(unfold valid_datetime; simpl; lia) eq_refl) as H.
  exact (proj2 (proj2 (proj2 (proj2 (proj2 (proj2 H)))))).
Defined.

Lemma path_join_relative (a b b' : string) :
  starts_with_slash b = false -> starts_with_slash b' = false ->
  path_join a b = path_join a b' -> b = b'.
Proof.
  unfold path_join; intros -> -> H.
  destruct (String.eqb a "" || ends_with_slash a).
  - now apply append_cancel_l in H.
  - apply append_cancel_l in H; now apply skip_char in H.
Qed.

(** X12: the two log files never have the same name, whatever the directory
    of the script and the days the names were made on; and the name of a log
    file tells the day: two valid instants that give the same info file (or
    the same error file) are of the same day. *)
Theorem log_file_names :
  forall (LOG_DIR : string) (t1 t2 : datetime),
    valid_datetime t1 -> valid_datetime t2 ->
    INFO_LOG_FILE LOG_DIR t1 <> ERROR_LOG_FILE LOG_DIR t2 /\
    (INFO_LOG_FILE LOG_DIR t1 = INFO_LOG_FILE LOG_DIR t2 ->
     year t1 = year t2 /\ month t1 = month t2 /\ day t1 = day t2) /\
    (ERROR_LOG_FILE LOG_DIR t1 = ERROR_LOG_FILE LOG_DIR t2 ->
     year t1 = year t2 /\ month t1 = month t2 /\ day t1 = day t2).
Proof.
  intros LOG_DIR t1 t2 (Hy1 & Hmo1 & Hd1 & _) (Hy2 & Hmo2 & Hd2 & _).
  assert (Hdate : forall prefix,
            (prefix ++ current_date t1 ++ ".log" =
             prefix ++ current_date t2 ++ ".log")%string ->
            year t1 = year t2 /\ month t1 = month t2 /\ day t1 = day t2).
  { intros prefix H; apply append_cancel_l in H.
    unfold current_date in H; rewrite !TextFacts.append_assoc in H.
    do 3 next_field H. auto. }
  split; [|split].
  - intros H; apply path_join_relative in H; [|reflexivity..].
    cbn in H; inversion H.
  - intros H; apply path_join_relative in H; [|reflexivity..].
    apply (Hdate "upload_info_"), H.
  - intros H; apply path_join_relative in H; [|reflexivity..].
    apply (Hdate "upload_error_"), H.
Qed.

Lemma log_file_names_witness :
  valid_datetime Script.clock /\
  INFO_LOG_FILE "/srv/uploader" Script.clock <>
  ERROR_LOG_FILE "/srv/uploader" Script.clock.
Proof.
  assert (Hvalid : valid_datetime Script.clock)
    by (unfold valid_datetime; simpl; lia).
  split; [exact Hvalid|].
  exact (proj1 (log_file_names "/srv/uploader" Script.clock Script.clock
                  Hvalid Hvalid)).
Defined.

(** X13: the text written for a record ends in one newline and is not
    escaped: with a level name that holds no newline it has one line end more
    than the message, so a record is one line of its file exactly when its
    message (the file name in it) holds no newline. *)
Theorem record_lines :
  forall (now : datetime) (level msg : string),
    valid_datetime now ->
    count_newlines level = 0 ->
    count_newlines (format (log_entry now level msg) ++ newline) =
    S (count_newlines msg).
Proof.
  intros now level msg _ Hlevel.
  unfold format; cbn [asctime levelname message log_entry].
  rewrite asctime_milliseconds.
  rewrite !count_newlines_append, !count_newlines_zero_padded, Hlevel.
  cbn; lia.
Qed.

Lemma record_lines_witness :
  valid_datetime Script.clock /\
  count_newlines "INFO" = 0 /\
  count_newlines
    (format (log_entry Script.clock "INFO" "File a.txt uploaded to bk") ++
     newline) = 1.
Proof.
  assert (Hvalid : valid_datetime Script.clock)
    by (unfold valid_datetime; simpl; lia).
  split; [exact Hvalid|]. split; [reflexivity|].
  exact (record_lines Script.clock "INFO" "File a.txt uploaded to bk"
           Hvalid eq_refl).
Defined.



(** ** emg_filter_and_save.py *)

Module EmgFacts.
Import EmgFilter.

Lemma upper_append (a b : string) :
  upper (a ++ b) = (upper a ++ upper b)%string.
Proof. induction a as [|c a IH]; cbn; [reflexivity | now rewrite IH]. Qed.

Lemma startswith_append (p b : string) : startswith p (p ++ b) = true.
Proof.
  induction p as [|c p IH]; cbn; [reflexivity|].
  now rewrite Ascii.eqb_refl, IH.
Qed.

Lemma contains_after (p a s : string) :
  contains p s = true -> contains p (a ++ s) = true.
Proof.
  intros H; induction a as [|c a IH]; [exact H|].
  cbn [append contains]; rewrite IH; apply orb_true_r.
Qed.

Lemma contains_middle (p a b : string) : contains p (a ++ p ++ b) = true.
Proof.
  apply contains_after.
  destruct (p ++ b)%string eqn:E; cbn [contains];
    rewrite <- E, startswith_append; reflexivity.
Qed.

(** The prefix put in front of a label does not make or unmake an EMG
    label. *)
Lemma contains_emg_filtered (s : string) :
  contains "EMG" (upper ("Filtered_" ++ s)) = contains "EMG" (upper s).
Proof.
  rewrite upper_append.
  change (upper "Filtered_") with "FILTERED_".
  reflexivity.
Qed.

Section ProcessEdfFacts.

Variable Signal Rate Other : Type.
Variable apply_filter : Signal -> Rate -> outcome Signal.
Variable World : Type.
Variable read_edf : World -> string -> read_outcome Signal Rate Other.
Variable open_writer : World -> string -> nat -> option string * World.
Variable set_signal_header :
  World -> string -> nat -> header Rate Other -> option string * World.
Variable write_physical_samples :
  World -> string -> Signal -> option string * World.
Variable close_writer : World -> string -> option string * World.

Local Abbreviation filter_all := (filter_channels apply_filter).
Local Abbreviation write_loop :=
  (write_channels Signal Rate Other World set_signal_header
     write_physical_samples).
Local Abbreviation process :=
  (process_edf Signal Rate Other apply_filter World read_edf open_writer
     set_signal_header write_physical_samples close_writer).

(** X14: a channel is taken for an EMG channel whatever the case of the
    letters: a label that holds, anywhere, three characters that read EMG
    once put in upper case is an EMG label. *)
Theorem emg_label_any_case :
  forall (before word after : string) (fs : option Rate) (o : Other),
    upper word = "EMG" ->
    is_emg {| label := before ++ word ++ after; sample_rate := fs;
              other := o |} = true.
Proof.
  intros before word after fs o Hword.
  unfold is_emg; cbn [label].
  rewrite !upper_append, Hword.
  apply contains_middle.
Qed.

(** One turn of the loop over the signals. *)
Lemma filter_channels_cons (h : header Rate Other) (signal : Signal)
    (rest : list (channel Signal Rate Other)) :
  filter_all ((h, signal) :: rest) =
  match sample_rate h with
  | None => Raised (key_error "sample_rate")
  | Some fs =>
      if is_emg h then
        match apply_filter signal fs with
        | Raised e => Raised e
        | Returned filtered =>
            match filter_all rest with
            | Raised e => Raised e
            | Returned done => Returned ((filtered_header h, filtered) :: done)
            end
        end
      else
        match filter_all rest with
        | Raised e => Raised e
        | Returned done => Returned ((h, signal) :: done)
        end
  end.
Proof. reflexivity. Qed.

(** X15: when the loop over the signals ends without an exception, it gives
    as many channels as it was given, in the same order; every header held
    ['sample_rate']; a channel that is not an EMG channel is passed on as it
    is, header and samples; an EMG channel gets the samples [apply_filter]
    returns for its samples and its sampling rate, and a header that differs
    by the label only, the old label behind "Filtered_". *)
Theorem filter_channels_returns :
  forall channels new_channels : list (channel Signal Rate Other),
    filter_all channels = Returned new_channels ->
    length new_channels = length channels /\
    Forall2
      (fun old new : channel Signal Rate Other =>
         exists fs,
           sample_rate (fst old) = Some fs /\
           if is_emg (fst old)
           then label (fst new) = ("Filtered_" ++ label (fst old))%string /\
                sample_rate (fst new) = sample_rate (fst old) /\
                other (fst new) = other (fst old) /\
                apply_filter (snd old) fs = Returned (snd new)
           else new = old)
      channels new_channels.
Proof.
  induction channels as [|[h signal] rest IH]; intros new_channels H.
  - inversion H; split; [reflexivity | constructor].
  - rewrite filter_channels_cons in H.
    destruct (sample_rate h) as [fs|] eqn:Hfs; [|discriminate].
    destruct (is_emg h) eqn:Hemg.
    + destruct (apply_filter signal fs) as [filtered|e] eqn:Hf;
        [|discriminate].
      destruct (filter_all rest) as [done|e]; [|discriminate].
      inversion H; subst; destruct (IH done eq_refl) as [Hlen Hall].
      split; [cbn; now rewrite Hlen|].
      constructor; [|exact Hall].
      exists fs; cbn [fst snd]; rewrite Hemg; auto.
    + destruct (filter_all rest) as [done|e]; [|discriminate].
      inversion H; subst; destruct (IH done eq_refl) as [Hlen Hall].
      split; [cbn; now rewrite Hlen|].
      constructor; [|exact Hall].
      exists fs; cbn [fst snd]; now rewrite Hemg.
Qed.

Lemma filter_channels_length :
  forall channels new_channels : list (channel Signal Rate Other),
    filter_all channels = Returned new_channels ->
    length new_channels = length channels.
Proof.
  induction channels as [|[h signal] rest IH]; intros new_channels H.
  - now inversion H.
  - rewrite filter_channels_cons in H.
    destruct (sample_rate h) as [fs|]; [|discriminate].
    destruct (is_emg h).
    + destruct (apply_filter signal fs) as [filtered|e]; [|discriminate].
      destruct (filter_all rest) as [done|e]; [|discriminate].
      inversion H; cbn; now rewrite (IH done eq_refl).
    + destruct (filter_all rest) as [done|e]; [|discriminate].
      inversion H; cbn; now rewrite (IH done eq_refl).
Qed.

(** X16: in what the loop over the signals returns, the label of a channel
    passes the test for EMG exactly when the label it came with did: putting
    "Filtered_" in front of a label neither makes nor unmakes an EMG
    label. *)
Theorem filtered_channels_stay_emg :
  forall channels new_channels : list (channel Signal Rate Other),
    filter_all channels = Returned new_channels ->
    map (fun ch => is_emg (fst ch)) new_channels =
    map (fun ch => is_emg (fst ch)) channels.
Proof.
  induction channels as [|[h signal] rest IH]; intros new_channels H.
  - now inversion H.
  - rewrite filter_channels_cons in H.
    destruct (sample_rate h) as [fs|]; [|discriminate].
    destruct (is_emg h) eqn:Hemg.
    + destruct (apply_filter signal fs) as [filtered|e]; [|discriminate].
      destruct (filter_all rest) as [done|e]; [|discriminate].
      inversion H; cbn [map fst]; rewrite (IH done eq_refl), Hemg.
      f_equal; unfold is_emg in Hemg |- *; cbn [filtered_header label].
      now rewrite contains_emg_filtered.
    + destruct (filter_all rest) as [done|e]; [|discriminate].
      inversion H; cbn [map fst]; now rewrite (IH done eq_refl), Hemg.
Qed.

(** The loop stops at the exception: what is behind the channel that raises
    does not count. *)
Lemma filter_channels_raised_prefix :
  forall (before after : list (channel Signal Rate Other)) (e : string),
    filter_all before = Raised e ->
    filter_all (before ++ after) = Raised e.
Proof.
  induction before as [|[h signal] rest IH]; intros after e H;
    [discriminate|].
  cbn [app]; rewrite filter_channels_cons in H |- *.
  destruct (sample_rate h) as [fs|]; [|exact H].
  destruct (is_emg h).
  - destruct (apply_filter signal fs) as [filtered|e']; [|exact H].
    destruct (filter_all rest) as [done|e'] eqn:Hrest; [discriminate|].
    inversion H; subst e'; now rewrite (IH after e eq_refl).
  - destruct (filter_all rest) as [done|e'] eqn:Hrest; [discriminate|].
    inversion H; subst e'; now rewrite (IH after e eq_refl).
Qed.

Lemma filter_channels_returned_prefix :
  forall (before after : list (channel Signal Rate Other)) done,
    filter_all before = Returned done ->
    filter_all (before ++ after) =
    match filter_all after with
    | Raised e => Raised e
    | Returned done' => Returned (done ++ done')
    end.
Proof.
  induction before as [|[h signal] rest IH]; intros after done H.
  - inversion H; cbn [app]; now destruct (filter_all after).
  - cbn [app]; rewrite filter_channels_cons in H |- *.
    destruct (sample_rate h) as [fs|]; [|discriminate].
    destruct (is_emg h).
    + destruct (apply_filter signal fs) as [filtered|e']; [|discriminate].
      destruct (filter_all rest) as [done0|e'] eqn:Hrest; [|discriminate].
      inversion H; subst done; rewrite (IH after done0 eq_refl).
      now destruct (filter_all after).
    + destruct (filter_all rest) as [done0|e'] eqn:Hrest; [|discriminate].
      inversion H; subst done; rewrite (IH after done0 eq_refl).
      now destruct (filter_all after).
Qed.

(** X17: the loop over the signals raises one of two exceptions, and that of
    the first channel that raises: the KeyError of a header without
    ['sample_rate'], whether the channel is an EMG channel or not, or what
    [apply_filter] raises on an EMG channel.  The channels in front of that
    channel went through; the channels behind it are not looked at: whatever
    they are, the loop raises the same. *)
Theorem filter_channels_raises :
  forall (channels : list (channel Signal Rate Other)) (e : string),
    filter_all channels = Raised e ->
    exists before h signal after,
      channels = before ++ (h, signal) :: after /\
      (exists done, filter_all before = Returned done) /\
      (sample_rate h = None /\ e = key_error "sample_rate" \/
       exists fs, sample_rate h = Some fs /\ is_emg h = true /\
                  apply_filter signal fs = Raised e) /\
      forall others, filter_all (before ++ (h, signal) :: others) = Raised e.
Proof.
  assert (Hfirst : forall (channels : list (channel Signal Rate Other)) e,
    filter_all channels = Raised e ->
    exists before h signal after,
      channels = before ++ (h, signal) :: after /\
      (exists done, filter_all before = Returned done) /\
      (sample_rate h = None /\ e = key_error "sample_rate" \/
       exists fs, sample_rate h = Some fs /\ is_emg h = true /\
                  apply_filter signal fs = Raised e) /\
      filter_all [(h, signal)] = Raised e).
  { induction channels as [|[h signal] rest IH]; intros e H; [discriminate|].
    rewrite filter_channels_cons in H.
    destruct (sample_rate h) as [fs|] eqn:Hfs.
    - destruct (is_emg h) eqn:Hemg.
      + destruct (apply_filter signal fs) as [filtered|e'] eqn:Hf.
        * destruct (filter_all rest) as [done|e'] eqn:Hrest; [discriminate|].
          inversion H; subst e'.
          destruct (IH e eq_refl)
            as (before & h' & s' & after & Hch & [done Hdone] & Hwhy & Hone).
          exists ((h, signal) :: before), h', s', after.
          split; [now rewrite Hch|]. split; [|split; assumption].
          exists ((filtered_header h, filtered) :: done).
          rewrite filter_channels_cons, Hfs, Hemg, Hf, Hdone; reflexivity.
        * inversion H; subst e'.
          exists [], h, signal, rest.
          split; [reflexivity|]. split; [exists []; reflexivity|].
          split; [right; exists fs; auto|].
          rewrite filter_channels_cons, Hfs, Hemg, Hf; reflexivity.
      + destruct (filter_all rest) as [done|e'] eqn:Hrest; [discriminate|].
        inversion H; subst e'.
        destruct (IH e eq_refl)
          as (before & h' & s' & after & Hch & [done Hdone] & Hwhy & Hone).
        exists ((h, signal) :: before), h', s', after.
        split; [now rewrite Hch|]. split; [|split; assumption].
        exists ((h, signal) :: done).
        rewrite filter_channels_cons, Hfs, Hemg, Hdone; reflexivity.
    - inversion H.
      exists [], h, signal, rest.
      split; [reflexivity|]. split; [exists []; reflexivity|].
      split; [left; auto|].
      rewrite filter_channels_cons, Hfs; reflexivity. }
  intros channels e H.
  destruct (Hfirst channels e H)
    as (before & h & signal & after & Hch & [done Hdone] & Hwhy & Hone).
  exists before, h, signal, after.
  split; [exact Hch|]. split; [eauto|]. split; [exact Hwhy|].
  intros others.
  rewrite (filter_channels_returned_prefix before _ done Hdone).
  assert (Hhere : filter_all ((h, signal) :: others) = Raised e)
    by exact (filter_channels_raised_prefix [(h, signal)] others e Hone).
  now rewrite Hhere.
Qed.

(** X18: a recording without an EMG label is never filtered: when every
    header holds ['sample_rate'] it comes out of the loop as it went in; when
    a header does not, the loop raises the KeyError although no channel had to
    be filtered. *)
Theorem no_emg_channel_unchanged :
  forall channels : list (channel Signal Rate Other),
    Forall (fun ch => is_emg (fst ch) = false) channels ->
    (Forall (fun ch => sample_rate (fst ch) <> None) channels ->
     filter_all channels = Returned channels) /\
    (Exists (fun ch => sample_rate (fst ch) = None) channels ->
     filter_all channels = Raised (key_error "sample_rate")).
Proof.
  induction channels as [|[h signal] rest IH]; intros Hall.
  - split; [reflexivity | intros H; inversion H].
  - inversion Hall as [|? ? Hh Hrest]; subst.
    destruct (IH Hrest) as [IHok IHbad]; cbn [fst] in Hh.
    rewrite filter_channels_cons, Hh.
    split.
    + intros Hrates; inversion Hrates as [|? ? Hrate Hrates']; subst.
      cbn [fst] in Hrate.
      destruct (sample_rate h) as [fs|]; [|congruence].
      now rewrite (IHok Hrates').
    + intros Hmissing.
      destruct (sample_rate h) as [fs|] eqn:Hfs; [|reflexivity].
      inversion Hmissing as [? ? Hhere | ? ? Hthere]; subst.
      * cbn [fst] in Hhere; congruence.
      * now rewrite (IHbad Hthere).
Qed.

Lemma error_line_not_written (e : string) : error_line e <> written_line.
Proof. unfold error_line, written_line; cbn; discriminate. Qed.

(** X19: [process_edf] prints its three lines and nothing else exactly when
    every step went through: the channels were read and the reader left
    without exception, the loop over the signals raised nothing, the writer
    was made for as many signals as were read, the loop over the new signals
    (for each channel, from the index 0 on, its header set and then its
    samples written) met no exception, and neither did leaving the writer;
    the file system is then the one the last call left. *)
Theorem success_is_printed_when_all_succeeded :
  forall (input_file output_file : string) (w : World),
    fst (process input_file output_file w) =
      [opened; processed; written_line] <->
    exists channels new_channels w1 w2,
      read_edf w input_file = Read _ _ _ channels None /\
      filter_all channels = Returned new_channels /\
      open_writer w output_file (length channels) = (None, w1) /\
      write_loop output_file 0 new_channels w1 = (None, w2) /\
      close_writer w2 output_file =
        (None, snd (process input_file output_file w)).
Proof.
  intros input_file output_file w; unfold process_edf, write_all; split.
  - destruct (read_edf w input_file) as [e|e|channels [e|]];
      try (cbn; discriminate).
    + destruct (filter_all channels) as [new_channels|e'];
        cbn; intros H; inversion H as [Hline];
        now apply error_line_not_written in Hline.
    + destruct (filter_all channels) as [new_channels|e'] eqn:Hf;
        [|cbn; discriminate].
      rewrite (filter_channels_length _ _ Hf).
      destruct (open_writer w output_file (length channels))
        as [[e|] w1] eqn:Hopen.
      * cbn; intros H; inversion H as [Hline];
          now apply error_line_not_written in Hline.
      * destruct (write_loop output_file 0 new_channels w1)
          as [[e|] w2] eqn:Hloop.
        -- destruct (close_writer w2 output_file) as [[e'|] w3];
             cbn; intros H; inversion H as [Hline];
             now apply error_line_not_written in Hline.
        -- destruct (close_writer w2 output_file) as [[e'|] w3] eqn:Hclose;
             cbn; intros H; [discriminate|].
           exists channels, new_channels, w1, w2; auto.
  - intros (channels & new_channels & w1 & w2 & Hread & Hf & Hopen & Hloop
            & Hclose).
    rewrite Hread, Hf, (filter_channels_length _ _ Hf), Hopen, Hloop.
    destruct (close_writer w2 output_file) as [[e|] w3];
      [discriminate | reflexivity].
Qed.

(** X20: a failure before the writer is reached leaves the file system as it
    was: when the input cannot be read, or the loop over the signals raises
    on a channel ([apply_filter], or a header without ['sample_rate']),
    nothing is written, not even the channels that were filtered, and the last
    line printed is the error; the line of success is not printed. *)
Theorem failure_before_writing_writes_nothing :
  forall (input_file output_file : string) (w : World),
    (forall channels,
        read_edf w input_file = Read _ _ _ channels None ->
        exists e, filter_all channels = Raised e) ->
    snd (process input_file output_file w) = w /\
    (exists e, last (fst (process input_file output_file w)) "" =
               error_line e) /\
    ~ In written_line (fst (process input_file output_file w)).
Proof.
  intros input_file output_file w Hfail; unfold process_edf.
  assert (Hno : forall e l, l = [opened; error_line e] \/
                            l = [error_line e] \/
                            l = [opened; processed; error_line e] ->
                            ~ In written_line l).
  { intros e l [-> | [-> | ->]] Hin; cbn in Hin;
      repeat (destruct Hin as [Hin | Hin]; try discriminate Hin);
      try (now apply error_line_not_written in Hin); auto. }
  destruct (read_edf w input_file) as [e|e|channels [e|]] eqn:Hread.
  - split; [reflexivity | split; [exists e; reflexivity | apply (Hno e); cbn; auto]].
  - split; [reflexivity | split; [exists e; reflexivity | apply (Hno e); cbn; auto]].
  - destruct (filter_all channels) as [new_channels|e'].
    + split; [reflexivity | split; [exists e; reflexivity | apply (Hno e); cbn; auto]].
    + split; [reflexivity | split; [exists e; reflexivity | apply (Hno e); cbn; auto]].
  - destruct (Hfail channels eq_refl) as [e He]; rewrite He.
    split; [reflexivity | split; [exists e; reflexivity | apply (Hno e); cbn; auto]].
Qed.

End ProcessEdfFacts.

End EmgFacts.

Lemma emg_label_any_case_witness :
  EmgFilter.upper "emg" = "EMG" /\
  EmgFilter.is_emg (EmgScript.named "Chin emg sub") = true.
Proof.
  split; [reflexivity|].
  exact (EmgFacts.emg_label_any_case nat unit "Chin " "emg" " sub"
           (Some 4000) tt eq_refl).
Defined.

Lemma filter_channels_returns_witness :
  EmgFilter.filter_channels EmgScript.apply_filter EmgScript.recording =
    EmgFilter.Returned EmgScript.filtered_recording /\
  length EmgScript.filtered_recording = length EmgScript.recording.
Proof.
  split; [reflexivity|].
  exact (proj1 (EmgFacts.filter_channels_returns (list nat) nat unit
                  EmgScript.apply_filter EmgScript.recording _ eq_refl)).
Defined.

Lemma filtered_channels_stay_emg_witness :
  EmgFilter.filter_channels EmgScript.apply_filter EmgScript.recording =
    EmgFilter.Returned EmgScript.filtered_recording /\
  map (fun ch : EmgScript.channel => EmgFilter.is_emg (fst ch))
    EmgScript.filtered_recording =
  [false; true; true].
Proof.
  split; [reflexivity|].
  exact (EmgFacts.filtered_channels_stay_emg (list nat) nat unit
           EmgScript.apply_filter EmgScript.recording _ eq_refl).
Defined.

Lemma filter_channels_raises_witness :
  EmgFilter.filter_channels EmgScript.apply_filter
    EmgScript.unrated_recording =
    EmgFilter.Raised "'sample_rate'" /\
  exists before h signal after,
    EmgScript.unrated_recording = before ++ (h, signal) :: after /\
    (exists done,
        EmgFilter.filter_channels EmgScript.apply_filter before =
        EmgFilter.Returned done) /\
    (EmgFilter.sample_rate h = None /\
     "'sample_rate'" = EmgFilter.key_error "sample_rate" \/
     exists fs, EmgFilter.sample_rate h = Some fs /\
                EmgFilter.is_emg h = true /\
                EmgScript.apply_filter signal fs =
                  EmgFilter.Raised "'sample_rate'") /\
    forall others,
      EmgFilter.filter_channels EmgScript.apply_filter
        (before ++ (h, signal) :: others) =
      EmgFilter.Raised "'sample_rate'".
Proof.
  split; [reflexivity|].
  exact (EmgFacts.filter_channels_raises (list nat) nat unit
           EmgScript.apply_filter EmgScript.unrated_recording _ eq_refl).
Defined.

Lemma no_emg_channel_unchanged_witness :
  Forall (fun ch : EmgScript.channel => EmgFilter.is_emg (fst ch) = false)
    EmgScript.unrated_recording /\
  Exists (fun ch : EmgScript.channel =>
            EmgFilter.sample_rate (fst ch) = None)
    EmgScript.unrated_recording /\
  EmgFilter.filter_channels EmgScript.apply_filter
    EmgScript.unrated_recording =
  EmgFilter.Raised "'sample_rate'".
Proof.
  assert (Hemg : Forall
                   (fun ch : EmgScript.channel =>
                      EmgFilter.is_emg (fst ch) = false)
                   EmgScript.unrated_recording)
    by (repeat constructor).
  assert (Hrate : Exists
                    (fun ch : EmgScript.channel =>
                       EmgFilter.sample_rate (fst ch) = None)
                    EmgScript.unrated_recording)
    by (right; left; reflexivity).
  split; [exact Hemg|]. split; [exact Hrate|].
  exact (proj2 (EmgFacts.no_emg_channel_unchanged (list nat) nat unit
                  EmgScript.apply_filter _ Hemg) Hrate).
Defined.

Lemma success_is_printed_when_all_succeeded_witness :
  fst (EmgScript.process_edf "night.EDF" "filtered_output.EDF" []) =
    [EmgFilter.opened; EmgFilter.processed; EmgFilter.written_line] /\
  exists channels new_channels w1 w2,
    EmgScript.read_edf [] "night.EDF" =
      EmgFilter.Read _ _ _ channels None /\
    EmgFilter.filter_channels EmgScript.apply_filter channels =
      EmgFilter.Returned new_channels /\
    EmgScript.open_writer [] "filtered_output.EDF" (length channels) =
      (None, w1) /\
    EmgFilter.write_channels (list nat) nat unit EmgScript.world
      EmgScript.set_signal_header EmgScript.write_physical_samples
      "filtered_output.EDF" 0 new_channels w1 = (None, w2) /\
    EmgScript.close_writer w2 "filtered_output.EDF" =
      (None,
       snd (EmgScript.process_edf "night.EDF" "filtered_output.EDF" [])).
Proof.
  split; [reflexivity|].
  exact (proj1 (EmgFacts.success_is_printed_when_all_succeeded
                  (list nat) nat unit EmgScript.apply_filter EmgScript.world
                  EmgScript.read_edf EmgScript.open_writer
                  EmgScript.set_signal_header
                  EmgScript.write_physical_samples EmgScript.close_writer
                  "night.EDF" "filtered_output.EDF" []) eq_refl).
Defined.

Lemma failure_before_writing_writes_nothing_witness :
  (forall channels,
      EmgScript.read_edf [] "broken.EDF" =
        EmgFilter.Read _ _ _ channels None ->
      exists e,
        EmgFilter.filter_channels EmgScript.apply_filter channels =
        EmgFilter.Raised e) /\
  snd (EmgScript.process_edf "broken.EDF" "filtered_output.EDF" []) = [].
Proof.
  assert (H : forall channels,
             EmgScript.read_edf [] "broken.EDF" =
               EmgFilter.Read _ _ _ channels None ->
             exists e,
               EmgFilter.filter_channels EmgScript.apply_filter channels =
               EmgFilter.Raised e).
  { intros channels Hread; inversion Hread; subst.
    eexists; reflexivity. }
  split; [exact H|].
  exact (proj1 (EmgFacts.failure_before_writing_writes_nothing
                  (list nat) nat unit EmgScript.apply_filter EmgScript.world
                  EmgScript.read_edf EmgScript.open_writer
                  EmgScript.set_signal_header
                  EmgScript.write_physical_samples EmgScript.close_writer
                  "broken.EDF" "filtered_output.EDF" [] H)).
Defined.
